(** * The Api registry, requirement collection and service builds of the project package

    A shallow embedding of
    - [codeconfig.Api] ([normalizePath], [matchingWorkers], [AddWorker],
      [AddSecurityDefinition], [AddSecurity]),
    - [Project.collectServiceRequirements] and
      [Project.CollectServicesRequirements],
    - [Project.BuildServices],
    followed by the properties proved about them.

    Go strings are modelled as [string] (sequences of bytes), Go maps as
    [gmap], Go slices as lists, and a [nil] slice or pointer as [None].
    Goroutines are modelled by an interleaving semantics: a state holding the
    program counter of every goroutine, and a step function that runs one
    atomic action of one goroutine. *)

From Stdlib Require Import String Ascii List Lia Bool Arith Permutation.
From Stdlib Require Import DecimalString.
From stdpp Require Import gmap strings list fin_maps.

Open Scope string_scope.

Set Warnings "-register-all".

(** ** Go's [strings] package, as far as the code uses it *)

(** [strings.HasPrefix]. *)
Fixpoint HasPrefix (s pre : string) {struct pre} : bool :=
  match pre with
  | EmptyString => true
  | String b pre' =>
      match s with
      | EmptyString => false
      | String a s' => Ascii.eqb a b && HasPrefix s' pre'
      end
  end.

(** One byte of [strings.ToLower]: the letters [A]..[Z] move to [a]..[z]. *)
Definition lowerByte (c : ascii) : ascii :=
  let n := nat_of_ascii c in
  if Nat.leb 65 n && Nat.leb n 90 then ascii_of_nat (n + 32) else c.

(** [strings.ToLower] on the bytes of the string. On ASCII text this is what
    Go computes; bytes from 128 on are left as they are, where Go lower-cases
    the letters outside ASCII too. What depends on the lower-casing beyond
    ASCII is therefore stated for any lower-casing function with the
    properties used ([normalizePathWith], [pathToNormalizedServiceNameWith]). *)
Fixpoint ToLower (s : string) : string :=
  match s with
  | EmptyString => EmptyString
  | String c s' => String (lowerByte c) (ToLower s')
  end.

(** [strings.Join]. *)
Fixpoint Join (elems : list string) (sep : string) : string :=
  match elems with
  | [] => ""
  | [e] => e
  | e :: rest => e ++ sep ++ Join rest sep
  end.

(** The byte ['/'], the path separator. *)
Definition slash : ascii := "/"%char.

(** The pieces of [s] between separators, empty pieces included
    (what [strings.Split s "/"] returns). *)
Fixpoint splitSlash (s : string) : list string :=
  match s with
  | EmptyString => [""]
  | String c s' =>
      if Ascii.eqb c slash then "" :: splitSlash s'
      else match splitSlash s' with
           | piece :: rest => String c piece :: rest
           | [] => [String c ""]
           end
  end.

Definition nonEmpty (s : string) : bool :=
  match s with EmptyString => false | String _ _ => true end.

(** Modelled from the spec: [utils.SplitPath] is not among the sources. The
    path is "split into segments on the path separator"; a segment is a
    maximal run of bytes other than ['/'], so a leading, trailing or doubled
    separator yields no segment. *)
Definition SplitPath (p : string) : list string :=
  List.filter nonEmpty (splitSlash p).

(** ** Errors *)

(** Go's [error] values met in this code: a message ([fmt.Errorf],
    [errors.New]) or the result of [errors.Join]. *)
Inductive error : Type :=
| errorString (msg : string)
| joinError (errs : list error).

(** The [Error()] method: a joined error prints its parts one per line. *)
Fixpoint Error (e : error) : string :=
  match e with
  | errorString msg => msg
  | joinError errs => Join (List.map Error errs) (String "010"%char "")
  end.

(** [errors.Join]: [nil] values are discarded; the result is [nil] when
    nothing is left. *)
Definition errorsJoin (errs : list (option error)) : option error :=
  match omap id errs with
  | [] => None
  | es => Some (joinError es)
  end.

(** ** package codeconfig: the Api registry *)

(** [v1.ApiWorker], the fields the registry reads. *)
Record ApiWorker : Type := mkApiWorker {
  Path : string;
  Methods : list string;
  Target : string;
}.

(** [v1.ApiSecurityDefinition] is opaque to the registry. *)
Record ApiSecurityDefinition : Type := mkApiSecurityDefinition {
  Issuer : string;
  Audiences : list string;
}.

(** Modelled from the spec: [FunctionDependencies] is not among the sources.
    [AddError] "records a non-fatal conflict against the owning service":
    the message is appended to the owner's list of errors. *)
Record FunctionDependencies : Type := mkFunctionDependencies {
  errors : list string;
}.

Definition AddError (parent : FunctionDependencies) (err : string)
  : FunctionDependencies :=
  {| errors := errors parent ++ [err] |}.

(** The struct [Api]. [parent] holds the state of the object the pointer
    refers to; workers and security definitions are pointers, [None] being
    [nil]. The mutex is held for the whole of every method below, so each
    method is one atomic state change. *)
Record Api : Type := mkApi {
  parent : FunctionDependencies;
  securityDefinitions : gmap string (option ApiSecurityDefinition);
  security : gmap string (list string);
  workers : list (option ApiWorker);
}.

Definition newApi (parent : FunctionDependencies) : Api :=
  {| parent := parent;
     securityDefinitions := ∅;
     security := ∅;
     workers := [] |}.

(** The generated getters accept a [nil] receiver. *)
Definition GetPath (w : option ApiWorker) : string :=
  match w with Some w => Path w | None => "" end.

Definition GetMethods (w : option ApiWorker) : list string :=
  match w with Some w => Methods w | None => [] end.

(** The body of the loop of [normalizePath]. *)
Definition normalizePart (part : string) : string :=
  if HasPrefix part ":" then ":param" else ToLower part.

Definition normalizePath (path : string) : string :=
  Join (List.map normalizePart (SplitPath path)) "/".

(** The two nested loops of [matchingWorkers]. *)
Definition sharesMethod (ms1 ms2 : list string) : bool :=
  existsb (fun aMethod => existsb (fun bMethod => String.eqb aMethod bMethod) ms2) ms1.

Definition matchingWorkers (a b : option ApiWorker) : bool :=
  if String.eqb (normalizePath (GetPath a)) (normalizePath (GetPath b))
  then sharesMethod (GetMethods a) (GetMethods b)
  else false.

Definition overlapMessage : string :=
  "overlapping worker %v already registered, can't add new worker %v".

Definition AddWorker (a : Api) (worker : option ApiWorker) : Api :=
  if existsb (fun existing => matchingWorkers existing worker) (workers a)
  then {| parent := AddError (parent a) overlapMessage;
          securityDefinitions := securityDefinitions a;
          security := security a;
          workers := workers a |}
  else {| parent := parent a;
          securityDefinitions := securityDefinitions a;
          security := security a;
          workers := workers a ++ [worker] |}.

Definition AddSecurityDefinition (a : Api) (name : string)
    (sd : option ApiSecurityDefinition) : Api :=
  {| parent := parent a;
     securityDefinitions := <[name := sd]> (securityDefinitions a);
     security := security a;
     workers := workers a |}.

(** [scopes] is a slice: [None] is the [nil] slice. *)
Definition AddSecurity (a : Api) (name : string)
    (scopes : option (list string)) : Api :=
  match scopes with
  | Some scopes =>
      {| parent := parent a;
         securityDefinitions := securityDefinitions a;
         security := <[name := scopes]> (security a);
         workers := workers a |}
  | None =>
      {| parent := parent a;
         securityDefinitions := securityDefinitions a;
         security := <[name := []]> (security a);
         workers := workers a |}
  end.

(** ** package project: services and projects *)

(** Modelled from the spec: the struct [Service] is not among the sources.
    It is an "immutable descriptor {name, source file path, declared type,
    start command, build context}"; [GetFilePath] returns the source file
    path. *)
Record Service : Type := mkService {
  Name : string;
  Type_ : string;
  filepath : string;
  startCmd : string;
}.

Definition GetFilePath (s : Service) : string := filepath s.

(** [preview.Feature] is a string type; the constant is the one the error
    message of [collectServiceRequirements] spells out. *)
Definition Feature_SqlDatabases : string := "sql-databases".

Record Project : Type := mkProject {
  ProjectName : string;
  Directory : string;
  Preview : list string;
  services : list Service;
}.

(** [slices.Contains] on strings. *)
Definition Contains (l : list string) (x : string) : bool :=
  existsb (fun y => String.eqb y x) l.

(** ** Requirement collection *)

(** Modelled from the spec: [collector.ServiceRequirements] is not among the
    sources. It is the set of resources one service declares; of these the
    code under study reads only whether an SQL database was declared
    ([HasDatabases]). *)
Record ServiceRequirements : Type := mkServiceRequirements {
  serviceName : string;
  serviceFile : string;
  serviceType : string;
  sqlDatabases : list string;
}.

Definition NewServiceRequirements (name file type : string) : ServiceRequirements :=
  {| serviceName := name; serviceFile := file; serviceType := type;
     sqlDatabases := [] |}.

Definition HasDatabases (r : ServiceRequirements) : bool :=
  negb (Nat.eqb (length (sqlDatabases r)) 0).

(** What the world outside does during one session: the results of
    [net.Listen], of [net.SplitHostPort] and of [RunContainer], and the SQL
    databases the service registered with the collection server while it
    ran. *)
Record Session : Type := mkSession {
  listenErr : option error;
  splitErr : option error;
  declared : list string;
  runErr : option error;
}.

Definition databaseMessage (file : string) : string :=
  "service " ++ file ++
  " requires a database, but the project does not have the 'sql-databases' preview feature enabled. Please add sql-databases to the preview field of your nitric.yaml file to enable this feature".

(** [Project.collectServiceRequirements]. The result is Go's pair
    (requirements, error), [None] being [nil]. *)
Definition collectServiceRequirements (p : Project) (service : Service)
    (w : Session) : option ServiceRequirements * option error :=
  let serviceRequirements :=
    NewServiceRequirements (Name service) (GetFilePath service) (Type_ service) in
  match listenErr w with
  | Some err => (None, Some err)
  | None =>
    match splitErr w with
    | Some err =>
        (None, Some (errorString
           ("unable to split host and port for local Nitric collection server: "
            ++ Error err)))
    | None =>
      (* RunContainer: the service registers its resources, then returns *)
      let serviceRequirements :=
        {| serviceName := serviceName serviceRequirements;
           serviceFile := serviceFile serviceRequirements;
           serviceType := serviceType serviceRequirements;
           sqlDatabases := sqlDatabases serviceRequirements ++ declared w |} in
      match runErr w with
      | Some err => (None, Some err)
      | None =>
        if HasDatabases serviceRequirements
           && negb (Contains (Preview p) Feature_SqlDatabases)
        then (None, Some (errorString (databaseMessage (GetFilePath service))))
        else (Some serviceRequirements, None)
      end
    end
  end.

(** The two slices the goroutines of [CollectServicesRequirements] append
    to, each under its own mutex. *)
Record Collected : Type := mkCollected {
  allServiceRequirements : list (option ServiceRequirements);
  serviceErrors : list error;
}.

(** The goroutine started for the service at index [i]: its only access to
    shared state is one append under a mutex, so it is one atomic step. *)
Definition collectGoroutine (p : Project) (world : nat -> Session)
    (c : Collected) (i : nat) : Collected :=
  match services p !! i with
  | None => c
  | Some s =>
      match collectServiceRequirements p s (world i) with
      | (_, Some err) =>
          {| allServiceRequirements := allServiceRequirements c;
             serviceErrors := serviceErrors c ++ [err] |}
      | (serviceRequirements, None) =>
          {| allServiceRequirements := allServiceRequirements c ++ [serviceRequirements];
             serviceErrors := serviceErrors c |}
      end
  end.

(** [Project.CollectServicesRequirements]. [order] is the order in which the
    goroutines reach their append; [wg.Wait] returns once all have. *)
Definition CollectServicesRequirements (p : Project) (world : nat -> Session)
    (order : list nat) : option (list (option ServiceRequirements)) * option error :=
  let c := fold_left (collectGoroutine p world) order
             {| allServiceRequirements := []; serviceErrors := [] |} in
  if Nat.ltb 0 (length (serviceErrors c))
  then (None, errorsJoin (List.map Some (serviceErrors c)))
  else (Some (allServiceRequirements c), None).

(** A schedule of the goroutines: every service index exactly once. *)
Definition schedule (p : Project) (order : list nat) : Prop :=
  Permutation order (seq 0 (length (services p))).

(** The result of the session of the service at index [i]. *)
Definition sessionOf (p : Project) (world : nat -> Session) (i : nat)
  : option ServiceRequirements * option error :=
  match services p !! i with
  | Some s => collectServiceRequirements p s (world i)
  | None => (None, None)
  end.

(** The errors of the failing sessions, in the order of the services. *)
Definition sessionErrors (p : Project) (world : nat -> Session) : list error :=
  omap (fun i => snd (sessionOf p world i)) (seq 0 (length (services p))).

(** ** Building the services *)

(** The third status is modelled from the spec ("status ∈ {Building,
    Complete, Error}"); the sources name only the other two. *)
Inductive ServiceBuildStatus : Type :=
| ServiceBuildStatus_Building
| ServiceBuildStatus_Complete
| ServiceBuildStatus_Error.

Record ServiceBuildUpdate : Type := mkServiceBuildUpdate {
  ServiceName : string;
  Err : option error;
  Message : string;
  Status : ServiceBuildStatus;
}.

(** The update a build goroutine sends once [BuildImage] has returned. *)
Definition finalUpdate (svc : Service) (err : option error) : ServiceBuildUpdate :=
  match err with
  | Some err =>
      {| ServiceName := Name svc; Err := Some err; Message := Error err;
         Status := ServiceBuildStatus_Error |}
  | None =>
      {| ServiceName := Name svc; Err := None; Message := "Build Complete";
         Status := ServiceBuildStatus_Complete |}
  end.

(** Modelled from the spec: [NewBuildUpdateWriter] is not among the sources.
    What [BuildImage] writes to it goes to the update stream as an update of
    status Building. *)
Definition progressUpdate (svc : Service) (msg : string) : ServiceBuildUpdate :=
  {| ServiceName := Name svc; Err := None; Message := msg;
     Status := ServiceBuildStatus_Building |}.

Definition terminal (u : ServiceBuildUpdate) : bool :=
  match Status u with
  | ServiceBuildStatus_Building => false
  | _ => true
  end.

(** [min(goruntime.NumCPU(), goruntime.GOMAXPROCS(0))], the capacity of the
    channel [maxConcurrentBuilds]. *)
Definition permitPool (numCPU gomaxprocs : nat) : nat := Nat.min numCPU gomaxprocs.

(** Where a build goroutine stands. *)
Inductive workerPC : Type :=
| wNotStarted                 (* its go statement has not run yet *)
| wAcquire                    (* before [maxConcurrentBuilds <- struct{}{}] *)
| wBuilding                   (* inside [svc.BuildImage] *)
| wSend (err : option error)  (* [BuildImage] returned [err]; before the send on [updatesChan] *)
| wRelease                    (* before [<-maxConcurrentBuilds] *)
| wDone                       (* before [waitGroup.Done()] *)
| wExited.

(** Where [BuildServices] itself stands: in its loop, about to launch the
    service at index [i] (or, past the last one, the closing goroutine), or
    returned. *)
Inductive mainPC : Type :=
| mLoop (i : nat)
| mReturned.

(** Where the closing goroutine stands. *)
Inductive closerPC : Type :=
| cNotStarted
| cWait                       (* in [waitGroup.Wait()] *)
| cDrain (i : nat)            (* in the loop, before the [i]-th send of a token *)
| cExited.                    (* [close(updatesChan)] done *)

Record BuildState : Type := mkBuildState {
  mainPc : mainPC;
  workerPcs : list workerPC;
  closerPc : closerPC;
  permits : nat;                               (* [len(maxConcurrentBuilds)] *)
  wgCounter : nat;                             (* the counter of [waitGroup] *)
  closedChan : bool;                           (* [updatesChan] is closed *)
  sent : list (nat * ServiceBuildUpdate);      (* the updates sent so far, each with the index of its sender *)
  panicked : bool;                             (* a goroutine panicked *)
}.

(** One atomic action of one goroutine. What [BuildImage] does is chosen by
    the outside world: it writes progress any number of times and then
    returns [nil] or an error. *)
Inductive Action : Type :=
| aMain
| aWorker (i : nat)
| aWrite (i : nat) (msg : string)
| aReturn (i : nat) (err : option error)
| aCloser.

Definition setWorker (s : BuildState) (i : nat) (pc : workerPC) : BuildState :=
  {| mainPc := mainPc s; workerPcs := <[i := pc]> (workerPcs s);
     closerPc := closerPc s; permits := permits s; wgCounter := wgCounter s;
     closedChan := closedChan s; sent := sent s; panicked := panicked s |}.

Definition setMain (s : BuildState) (pc : mainPC) : BuildState :=
  {| mainPc := pc; workerPcs := workerPcs s;
     closerPc := closerPc s; permits := permits s; wgCounter := wgCounter s;
     closedChan := closedChan s; sent := sent s; panicked := panicked s |}.

Definition setCloser (s : BuildState) (pc : closerPC) : BuildState :=
  {| mainPc := mainPc s; workerPcs := workerPcs s;
     closerPc := pc; permits := permits s; wgCounter := wgCounter s;
     closedChan := closedChan s; sent := sent s; panicked := panicked s |}.

Definition setPermits (s : BuildState) (n : nat) : BuildState :=
  {| mainPc := mainPc s; workerPcs := workerPcs s;
     closerPc := closerPc s; permits := n; wgCounter := wgCounter s;
     closedChan := closedChan s; sent := sent s; panicked := panicked s |}.

Definition setWg (s : BuildState) (n : nat) : BuildState :=
  {| mainPc := mainPc s; workerPcs := workerPcs s;
     closerPc := closerPc s; permits := permits s; wgCounter := n;
     closedChan := closedChan s; sent := sent s; panicked := panicked s |}.

Definition closeChan (s : BuildState) : BuildState :=
  {| mainPc := mainPc s; workerPcs := workerPcs s;
     closerPc := closerPc s; permits := permits s; wgCounter := wgCounter s;
     closedChan := true; sent := sent s; panicked := panicked s |}.

Definition panic (s : BuildState) : BuildState :=
  {| mainPc := mainPc s; workerPcs := workerPcs s;
     closerPc := closerPc s; permits := permits s; wgCounter := wgCounter s;
     closedChan := closedChan s; sent := sent s; panicked := true |}.

(** A send on [updatesChan]: it panics when the channel is closed. The
    receiver is the caller of [BuildServices]. *)
Definition sendUpdate (s : BuildState) (i : nat) (u : ServiceBuildUpdate) : BuildState :=
  if closedChan s then panic s
  else {| mainPc := mainPc s; workerPcs := workerPcs s;
          closerPc := closerPc s; permits := permits s; wgCounter := wgCounter s;
          closedChan := closedChan s; sent := sent s ++ [(i, u)];
          panicked := panicked s |}.

Section BuildSteps.

(** The capacity of [maxConcurrentBuilds] and the services of the project. *)
Variable cap : nat.
Variable svcs : list Service.

Definition mainStep (s : BuildState) : option BuildState :=
  match mainPc s with
  | mLoop i =>
      match svcs !! i with
      | Some _ =>
          (* waitGroup.Add(1); go func(svc, writer) {...} *)
          Some (setMain (setWorker (setWg s (S (wgCounter s))) i wAcquire) (mLoop (S i)))
      | None =>
          (* go func() { waitGroup.Wait() ... }; return updatesChan, nil *)
          Some (setMain (setCloser s cWait) mReturned)
      end
  | mReturned => None
  end.

Definition workerStep (s : BuildState) (i : nat) : option BuildState :=
  match svcs !! i, workerPcs s !! i with
  | Some svc, Some wAcquire =>
      (* blocks while the buffer is full *)
      if Nat.ltb (permits s) cap
      then Some (setWorker (setPermits s (S (permits s))) i wBuilding)
      else None
  | Some svc, Some (wSend err) =>
      Some (setWorker (sendUpdate s i (finalUpdate svc err)) i wRelease)
  | Some svc, Some wRelease =>
      (* blocks while the buffer is empty *)
      match permits s with
      | S n => Some (setWorker (setPermits s n) i wDone)
      | O => None
      end
  | Some svc, Some wDone =>
      (* a negative counter panics *)
      match wgCounter s with
      | S n => Some (setWorker (setWg s n) i wExited)
      | O => Some (panic s)
      end
  | _, _ => None
  end.

Definition writeStep (s : BuildState) (i : nat) (msg : string) : option BuildState :=
  match svcs !! i, workerPcs s !! i with
  | Some svc, Some wBuilding => Some (sendUpdate s i (progressUpdate svc msg))
  | _, _ => None
  end.

Definition returnStep (s : BuildState) (i : nat) (err : option error) : option BuildState :=
  match workerPcs s !! i with
  | Some wBuilding => Some (setWorker s i (wSend err))
  | _ => None
  end.

Definition closerStep (s : BuildState) : option BuildState :=
  match closerPc s with
  | cWait =>
      if Nat.eqb (wgCounter s) 0 then Some (setCloser s (cDrain 0)) else None
  | cDrain i =>
      if Nat.ltb i cap
      then (if Nat.ltb (permits s) cap
            then Some (setCloser (setPermits s (S (permits s))) (cDrain (S i)))
            else None)
      else Some (setCloser (closeChan s) cExited)
  | _ => None
  end.

(** One step; [None] when the action is not enabled (the goroutine is
    blocked, not at such a statement, or the program has panicked). *)
Definition step (s : BuildState) (a : Action) : option BuildState :=
  if panicked s then None
  else match a with
       | aMain => mainStep s
       | aWorker i => workerStep s i
       | aWrite i msg => writeStep s i msg
       | aReturn i err => returnStep s i err
       | aCloser => closerStep s
       end.

Fixpoint exec (s : BuildState) (acts : list Action) : option BuildState :=
  match acts with
  | [] => Some s
  | a :: acts' =>
      match step s a with
      | Some s' => exec s' acts'
      | None => None
      end
  end.

(** The state when [BuildServices] enters its loop. *)
Definition initBuild : BuildState :=
  {| mainPc := mLoop 0; workerPcs := replicate (length svcs) wNotStarted;
     closerPc := cNotStarted; permits := 0; wgCounter := 0;
     closedChan := false; sent := []; panicked := false |}.

Definition reachable (s : BuildState) : Prop :=
  exists acts, exec initBuild acts = Some s.

End BuildSteps.

Definition noServicesMessage : string :=
  "no services found in project, nothing to build. This may indicate misconfigured `match` patterns in your nitric.yaml file".

(** [Project.BuildServices]: the pair (channel, error) it returns. The
    channel is given by the state of the goroutines that feed it; its
    behaviours are the executions from that state. *)
Definition BuildServices (p : Project) : option BuildState * option error :=
  if Nat.eqb (length (services p)) 0
  then (None, Some (errorString noServicesMessage))
  else (Some (initBuild (services p)), None).

(** Counting goroutines by their program counter. *)
Fixpoint countPc (f : workerPC -> bool) (l : list workerPC) : nat :=
  match l with
  | [] => 0
  | pc :: l' => (if f pc then 1 else 0) + countPc f l'
  end.

Definition isBuilding (pc : workerPC) : bool :=
  match pc with wBuilding => true | _ => false end.

Definition holdsPermit (pc : workerPC) : bool :=
  match pc with wBuilding | wSend _ | wRelease => true | _ => false end.

Definition inWaitGroup (pc : workerPC) : bool :=
  match pc with wNotStarted | wExited => false | _ => true end.

Definition hasSentFinal (pc : workerPC) : bool :=
  match pc with wRelease | wDone | wExited => true | _ => false end.

(** The terminal updates the goroutine of index [i] has sent. *)
Definition finalsOf (i : nat) (l : list (nat * ServiceBuildUpdate)) : list ServiceBuildUpdate :=
  List.map snd (List.filter (fun x => Nat.eqb (fst x) i && terminal (snd x)) l).

(** The tokens the closing goroutine has put into [maxConcurrentBuilds]. *)
Definition closerTokens (cap : nat) (pc : closerPC) : nat :=
  match pc with
  | cDrain i => i
  | cExited => cap
  | _ => 0
  end.

(** Sequences of calls on one Api, to state what a later reader sees. *)
Inductive ApiCall : Type :=
| callAddWorker (worker : option ApiWorker)
| callAddSecurityDefinition (name : string) (sd : option ApiSecurityDefinition)
| callAddSecurity (name : string) (scopes : option (list string)).

Definition call (a : Api) (c : ApiCall) : Api :=
  match c with
  | callAddWorker worker => AddWorker a worker
  | callAddSecurityDefinition name sd => AddSecurityDefinition a name sd
  | callAddSecurity name scopes => AddSecurity a name scopes
  end.

Definition calls (a : Api) (cs : list ApiCall) : Api := fold_left call cs a.

Definition setsSecurity (name : string) (c : ApiCall) : bool :=
  match c with
  | callAddSecurity n _ => String.eqb n name
  | _ => false
  end.

Definition setsSecurityDefinition (name : string) (c : ApiCall) : bool :=
  match c with
  | callAddSecurityDefinition n _ => String.eqb n name
  | _ => false
  end.

(** Vocabulary of the statements about paths and collisions. *)
Fixpoint slashFree (s : string) : bool :=
  match s with
  | EmptyString => true
  | String c s' => negb (Ascii.eqb c slash) && slashFree s'
  end.

(** A segment of a path: not empty, no separator in it. *)
Definition segment (s : string) : bool := nonEmpty s && slashFree s.

(** The spec's notion of collision: "normalized paths are equal AND their
    method sets intersect (exact string match)". *)
Definition collide (a b : option ApiWorker) : Prop :=
  normalizePath (GetPath a) = normalizePath (GetPath b) /\
  exists m, In m (GetMethods a) /\ In m (GetMethods b).

(** [strings.Contains]. *)
Fixpoint strContains (s substr : string) : bool :=
  HasPrefix s substr ||
  match s with
  | EmptyString => false
  | String _ s' => strContains s' substr
  end.

(** What the goroutine of index [i] appends to [allServiceRequirements] and
    to [serviceErrors]. *)
Definition appendedRequirements (p : Project) (world : nat -> Session) (i : nat)
  : option (option ServiceRequirements) :=
  match services p !! i with
  | None => None
  | Some s =>
      match collectServiceRequirements p s (world i) with
      | (_, Some _) => None
      | (r, None) => Some r
      end
  end.

Definition appendedError (p : Project) (world : nat -> Session) (i : nat)
  : option error :=
  snd (sessionOf p world i).

(** Vocabulary of the invariant of the build goroutines. *)

(** The goroutines before index [i] have been launched, the others not. *)
Definition spawnOk (m : mainPC) (j : nat) (pc : workerPC) : Prop :=
  match m with
  | mLoop i => (i <= j -> pc = wNotStarted) /\ (j < i -> pc <> wNotStarted)
  | mReturned => pc <> wNotStarted
  end.

(** The closing goroutine is past [waitGroup.Wait()]. *)
Definition pastWait (c : closerPC) : bool :=
  match c with
  | cDrain _ | cExited => true
  | _ => false
  end.

(** A goroutine has sent its terminal update once it is past the send, and
    none before. *)
Definition finalsOk (svc : Service) (pc : workerPC) (fs : list ServiceBuildUpdate) : Prop :=
  if hasSentFinal pc then exists err, fs = [finalUpdate svc err] else fs = [].

Definition terminalCount (l : list (nat * ServiceBuildUpdate)) : nat :=
  length (List.filter (fun x => terminal (snd x)) l).

Record Inv (cap : nat) (svcs : list Service) (s : BuildState) : Prop := mkInv {
  inv_length : length (workerPcs s) = length svcs;
  inv_panic : panicked s = false;
  inv_permits :
    permits s = countPc holdsPermit (workerPcs s) + closerTokens cap (closerPc s);
  inv_cap : permits s <= cap;
  inv_wg : wgCounter s = countPc inWaitGroup (workerPcs s);
  inv_main :
    match mainPc s with
    | mLoop _ => closerPc s = cNotStarted
    | mReturned => closerPc s <> cNotStarted
    end;
  inv_spawn : forall j pc, workerPcs s !! j = Some pc -> spawnOk (mainPc s) j pc;
  inv_closer :
    pastWait (closerPc s) = true ->
    forall j pc, workerPcs s !! j = Some pc -> pc = wExited;
  inv_drain : forall i, closerPc s = cDrain i -> i <= cap;
  inv_closed :
    closedChan s = match closerPc s with cExited => true | _ => false end;
  inv_finals :
    forall j pc svc, workerPcs s !! j = Some pc -> svcs !! j = Some svc ->
      finalsOk svc pc (finalsOf j (sent s));
  inv_total : terminalCount (sent s) = countPc hasSentFinal (workerPcs s);
  inv_names :
    Forall (fun x => exists svc, svcs !! fst x = Some svc /\
                                 ServiceName (snd x) = Name svc) (sent s);
}.

(** The states the goroutines started by [BuildServices p] can be in: those
    reached from the state it returns, by some sequence of actions. *)
Definition buildsTo (cap : nat) (p : Project) (s : BuildState) : Prop :=
  exists s0 acts,
    BuildServices p = (Some s0, None) /\ exec cap (services p) s0 acts = Some s.

(** A measure of the work left, for the proof that the stream can always be
    closed: the statements each goroutine still has to run. *)
Definition rank (pc : workerPC) : nat :=
  match pc with
  | wNotStarted => 6
  | wAcquire => 5
  | wBuilding => 4
  | wSend _ => 3
  | wRelease => 2
  | wDone => 1
  | wExited => 0
  end.

Fixpoint sumRank (l : list workerPC) : nat :=
  match l with
  | [] => 0
  | pc :: l' => rank pc + sumRank l'
  end.

Definition mainRank (n : nat) (m : mainPC) : nat :=
  match m with
  | mLoop i => S (n - i)
  | mReturned => 0
  end.

Definition closerRank (cap : nat) (c : closerPC) : nat :=
  match c with
  | cNotStarted => cap + 3
  | cWait => cap + 2
  | cDrain i => S (cap - i)
  | cExited => 0
  end.

Definition workLeft (cap : nat) (svcs : list Service) (s : BuildState) : nat :=
  mainRank (length svcs) (mainPc s) + sumRank (workerPcs s)
  + closerRank cap (closerPc s).

(** Past the acquire and not yet exited: such a goroutine is never blocked. *)
Definition canMove (pc : workerPC) : bool :=
  match pc with
  | wBuilding | wSend _ | wRelease | wDone => true
  | _ => false
  end.

Definition isAcquiring (pc : workerPC) : bool :=
  match pc with wAcquire => true | _ => false end.

(** The builds of the run [acts] return what [outcome] says. *)
Definition returnsFollow (outcome : nat -> option error) (acts : list Action) : Prop :=
  Forall (fun a => match a with
                   | aReturn i err => err = outcome i
                   | _ => True
                   end) acts.

(** A project of three services and two runs of its builds with a pool of
    two permits, used to exercise the model. *)
Definition sampleService (name : string) : Service :=
  {| Name := "shop_services-" ++ name; Type_ := "default";
     filepath := "services/" ++ name ++ ".ts"; startCmd := "" |}.

Definition sampleProject : Project :=
  {| ProjectName := "shop"; Directory := "."; Preview := [];
     services := [sampleService "a"; sampleService "b"; sampleService "c"] |}.

(** All goroutines launched, the first two inside [BuildImage]. *)
Definition sampleBusy : list Action :=
  [aMain; aMain; aMain; aMain; aWorker 0; aWorker 1].

(** A whole run: the build of the second service fails, the third service
    gets its permit once the second has given its own back. *)
Definition sampleRun : list Action :=
  (sampleBusy ++
   [aWrite 0 "Step 1/4"; aReturn 1 (Some (errorString "exit status 1"));
    aWorker 1; aWorker 1; aWorker 2; aWorker 1;
    aReturn 0 None; aReturn 2 None; aWorker 2; aWorker 0;
    aWorker 0; aWorker 0; aWorker 2; aWorker 2;
    aCloser; aCloser; aCloser; aCloser])%list.

(** No two workers of the list overlap. *)
Definition noOverlap (ws : list (option ApiWorker)) : Prop :=
  forall i j e1 e2, i <> j -> ws !! i = Some e1 -> ws !! j = Some e2 ->
    matchingWorkers e1 e2 = false.

(** The calls of [AddWorker] in a sequence of calls. *)
Definition countAddWorker (cs : list ApiCall) : nat :=
  length (List.filter (fun c => match c with callAddWorker _ => true | _ => false end) cs).

(** ** More of Go's libraries, for the code below *)

(** [strings.Replace s old new (-1)], that is [strings.ReplaceAll]: the
    occurrences of [old] are replaced from left to right, without overlap.
    [replaceFrom] walks the string; [skip] counts the bytes of a replaced
    occurrence still to pass over. With an empty [old], [new] goes before
    every byte and at the end (Go does so rune by rune). *)
Fixpoint replaceFrom (old new : string) (skip : nat) (s : string) : string :=
  match s with
  | EmptyString => EmptyString
  | String c s' =>
      match skip with
      | S k => replaceFrom old new k s'
      | O =>
          if HasPrefix s old
          then new ++ replaceFrom old new (String.length old - 1) s'
          else String c (replaceFrom old new 0 s')
      end
  end.

Fixpoint insertAll (new : string) (s : string) : string :=
  match s with
  | EmptyString => new
  | String c s' => new ++ String c (insertAll new s')
  end.

Definition ReplaceAll (s old new : string) : string :=
  if String.eqb old new then s
  else match old with
       | EmptyString => insertAll new s
       | String _ _ => replaceFrom old new 0 s
       end.

(** The loop of [filepath.Ext], from the last byte backwards: [rest] is the
    part of the path still to visit, reversed, and [acc] the part already
    visited. The separator is ['/'], as on Unix. *)
Fixpoint extScan (rest : list ascii) (acc : string) : string :=
  match rest with
  | [] => ""
  | c :: rest' =>
      if Ascii.eqb c slash then ""
      else if Ascii.eqb c "."%char then String c acc
      else extScan rest' (String c acc)
  end.

Definition Ext (path : string) : string :=
  extScan (rev (list_ascii_of_string path)) "".

(** ** package runtime *)

Definition RuntimeTypescript : string := "ts".
Definition RuntimeJavascript : string := "js".
Definition RuntimePython : string := "py".
Definition RuntimeGolang : string := "go".
Definition RuntimeCsharp : string := "cs".

(** The implementations of the interface [Runtime]: each is a struct of the
    extension and the handler. *)
Inductive Runtime : Type :=
| golang (rte handler : string)
| javascript (rte handler : string)
| python (rte handler : string)
| typescript (rte handler : string)
| csharp (rte handler : string).

Definition dotnetArmMessage : string :=
  "the .NET runtime is not supported in containers using ARM based architecture. We recommend using nitric start for local development, and a CI/CD pipeline for deployments. For more info on the issue: https://devblogs.microsoft.com/dotnet/announcing-net-6/#docker-on-arm64".

(** [NewRunTimeFromHandler]; [GOARCH] is [runtime.GOARCH]. *)
Definition NewRunTimeFromHandler (GOARCH : string) (handler : string) (isStart : bool)
  : option Runtime * option error :=
  let rt := ReplaceAll (Ext handler) "." "" in
  if negb isStart && strContains GOARCH "arm" && String.eqb rt RuntimeCsharp
  then (None, Some (errorString dotnetArmMessage))
  else if String.eqb rt RuntimeGolang then (Some (golang rt handler), None)
  else if String.eqb rt RuntimeJavascript then (Some (javascript rt handler), None)
  else if String.eqb rt RuntimePython then (Some (python rt handler), None)
  else if String.eqb rt RuntimeTypescript then (Some (typescript rt handler), None)
  else if String.eqb rt RuntimeCsharp then (Some (csharp rt handler), None)
  else (None, Some (errorString ("runtime '" ++ rt ++ "' not supported"))).

(** ** package project: service names *)

(** [ProjectConfiguration.pathToNormalizedServiceName]; [name] is the field
    [Name] of the receiver, [os.PathSeparator] is ['/']. The last
    replacement is of the literal text [[^\w]]: [strings.ReplaceAll] takes
    no pattern. *)
Definition pathToNormalizedServiceName (name : string) (servicePath : string) : string :=
  let servicePath := name ++ "_" ++ servicePath in
  let servicePath := ReplaceAll servicePath "/" "-" in
  let servicePath := ReplaceAll servicePath (Ext servicePath) "" in
  let servicePath := ReplaceAll servicePath "." "-" in
  let servicePath := ReplaceAll servicePath "[^\w]" "-" in
  ToLower servicePath.

(** The byte [c] occurs in [s]. *)
Fixpoint hasByte (c : ascii) (s : string) : bool :=
  match s with
  | EmptyString => false
  | String b s' => Ascii.eqb b c || hasByte c s'
  end.

(** ** package project: the environment of a service started by command *)

(** [strconv.Itoa]. *)
Definition Itoa (i : Z) : string := NilZero.string_of_int (Z.to_int i).

(** The map literal of [RunServicesWithCommand], for the port the local
    cloud gave the service. *)
Definition defaultEnvVariables (port : Z) : gmap string string :=
  <["PYTHONUNBUFFERED" := "TRUE"]>
    (<["NITRIC_ENVIRONMENT" := "run"]>
       (<["SERVICE_ADDRESS" := "localhost:" ++ Itoa port]> ∅)).

(** The map [envVariables] handed to [svc.Run]: the loop stores every entry
    of [env] into the map literal. *)
Definition envVariables (port : Z) (env : gmap string string) : gmap string string :=
  map_fold (fun key value vars => <[key := value]> vars) (defaultEnvVariables port) env.

(** ** What the update stream holds of one service *)

Definition updatesOf (i : nat) (l : list (nat * ServiceBuildUpdate)) : list ServiceBuildUpdate :=
  List.map snd (List.filter (fun x => Nat.eqb (fst x) i) l).

(** Before the build, in it, past it. *)
Definition phase (pc : workerPC) : nat :=
  match pc with
  | wNotStarted | wAcquire => 0
  | wBuilding | wSend _ => 1
  | wRelease | wDone | wExited => 2
  end.

Definition isProgress (svc : Service) (u : ServiceBuildUpdate) : Prop :=
  exists msg, u = progressUpdate svc msg.

Definition streamOk (svc : Service) (pc : workerPC) (us : list ServiceBuildUpdate) : Prop :=
  match phase pc with
  | 0 => us = []
  | 1 => Forall (isProgress svc) us
  | _ => exists pre err, us = (pre ++ [finalUpdate svc err])%list /\ Forall (isProgress svc) pre
  end.

(** Every goroutine's updates on the stream fit where the goroutine stands. *)
Definition streamInv (svcs : list Service) (s : BuildState) : Prop :=
  forall i pc svc, workerPcs s !! i = Some pc -> svcs !! i = Some svc ->
    streamOk svc pc (updatesOf i (sent s)).

(** ** package project: loading a project from its configuration *)

(** The configuration structs are not among the sources; their fields are
    those [fromProjectConfiguration] reads. *)
Record ServiceConfiguration : Type := mkServiceConfiguration {
  scBasedir : string;
  scMatch : string;
  scRuntime : string;
  scType : string;
  scStart : string;
}.

Record RuntimeConfiguration : Type := mkRuntimeConfiguration {
  rcDockerfile : string;
  rcContext : string;
  rcArgs : gmap string string;
}.

Record ProjectConfiguration : Type := mkProjectConfiguration {
  pcName : string;
  pcDirectory : string;
  pcServices : list ServiceConfiguration;
  pcRuntimes : gmap string RuntimeConfiguration;
  pcPreview : list string;
}.

(** What [fromProjectConfiguration] calls outside this package:
    [afero.Glob] on the file system, [filepath.Join], [filepath.Rel], and
    [runtime.NewBuildContext], of which only the error is kept (a [Service]
    is modelled without its build context). *)
Record Outside : Type := mkOutside {
  Glob : string -> list string * option error;
  filepathJoin : string -> string -> string;
  filepathRel : string -> string -> string * option error;
  NewBuildContext :
    string -> string -> string -> gmap string string -> list string -> option error;
}.

(** Modelled from the spec: [NewService] is not among the sources; a
    service is the descriptor of its name, type, file path and start
    command. *)
Definition NewService (name type filePath start : string) : Service :=
  {| Name := name; Type_ := type; filepath := filePath; startCmd := start |}.

(** The loop state of [fromProjectConfiguration]. *)
Record Loaded : Type := mkLoaded {
  ldServices : list Service;
  ldMatches : gmap string string;
}.

(** The build context of one service file: the error, if any. *)
Definition buildContextError (E : Outside) (pc : ProjectConfiguration)
    (serviceSpec : ServiceConfiguration)
    (relativeServiceEntrypointPath f : string) (otherEntryPointFiles : list string)
  : option error :=
  if negb (String.eqb (scRuntime serviceSpec) "")
  then match pcRuntimes pc !! scRuntime serviceSpec with
       | None =>
           Some (errorString ("unable to find runtime " ++ scRuntime serviceSpec))
       | Some customRuntime =>
           match NewBuildContext E relativeServiceEntrypointPath
                   (rcDockerfile customRuntime)
                   (if negb (String.eqb (rcContext customRuntime) "")
                    then rcContext customRuntime else scBasedir serviceSpec)
                   (rcArgs customRuntime) otherEntryPointFiles with
           | Some err =>
               Some (errorString
                 ("unable to create build context for custom service file " ++ f
                  ++ ": " ++ Error err))
           | None => None
           end
       end
  else match NewBuildContext E relativeServiceEntrypointPath ""
               (scBasedir serviceSpec) ∅ otherEntryPointFiles with
       | Some err =>
           Some (errorString
             ("unable to create build context for service file " ++ f
              ++ ": " ++ Error err))
       | None => None
       end.

(** The inner loop, over the files a pattern matched. [type] is the field
    [Type] of the loop's copy of the service configuration, which the loop
    sets to [default] when it is empty, after the service is made. *)
Fixpoint loadFiles (E : Outside) (pc : ProjectConfiguration)
    (serviceSpec : ServiceConfiguration) (rest files : list string)
    (type : string) (st : Loaded) : Loaded + error :=
  match rest with
  | [] => inl st
  | f :: rest' =>
      let relativeServiceEntrypointPath :=
        fst (filepathRel E (filepathJoin E (pcDirectory pc) (scBasedir serviceSpec)) f) in
      let projectRelativeServiceFile := filepathJoin E (pcDirectory pc) f in
      let serviceName := pathToNormalizedServiceName (pcName pc) projectRelativeServiceFile in
      let otherEntryPointFiles :=
        List.filter (fun file => negb (String.eqb file f)) files in
      match buildContextError E pc serviceSpec relativeServiceEntrypointPath f
              otherEntryPointFiles with
      | Some err => inr err
      | None =>
          let previous := default "" (ldMatches st !! f) in
          if negb (String.eqb previous "")
          then inr (errorString
                 ("service file " ++ f ++ " matched by multiple patterns: " ++ previous
                  ++ " and " ++ scMatch serviceSpec
                  ++ ", services must only be matched by a single pattern"))
          else
            let matches := <[f := scMatch serviceSpec]> (ldMatches st) in
            match filepathRel E (scBasedir serviceSpec) f with
            | (_, Some err) =>
                inr (errorString
                  ("unable to get relative file path for service " ++ f ++ ": "
                   ++ Error err))
            | (relativeFilePath, None) =>
                let newService :=
                  NewService serviceName type relativeFilePath (scStart serviceSpec) in
                let type := if String.eqb type "" then "default" else type in
                loadFiles E pc serviceSpec rest' files type
                  {| ldServices := ldServices st ++ [newService];
                     ldMatches := matches |}
            end
      end
  end.

(** The outer loop, over the service configurations. *)
Fixpoint loadSpecs (E : Outside) (pc : ProjectConfiguration)
    (specs : list ServiceConfiguration) (st : Loaded) : Loaded + error :=
  match specs with
  | [] => inl st
  | serviceSpec :: specs' =>
      let serviceMatch := filepathJoin E (scBasedir serviceSpec) (scMatch serviceSpec) in
      match Glob E serviceMatch with
      | (_, Some err) =>
          inr (errorString
            ("unable to match service files for pattern " ++ serviceMatch ++ ": "
             ++ Error err))
      | (files, None) =>
          match loadFiles E pc serviceSpec files files (scType serviceSpec) st with
          | inr err => inr err
          | inl st' => loadSpecs E pc specs' st'
          end
      end
  end.

Definition fromProjectConfiguration (E : Outside) (projectConfig : ProjectConfiguration)
  : option Project * option error :=
  match loadSpecs E projectConfig (pcServices projectConfig)
          {| ldServices := []; ldMatches := ∅ |} with
  | inr err => (None, Some err)
  | inl st =>
      (Some {| ProjectName := pcName projectConfig;
               Directory := pcDirectory projectConfig;
               Preview := pcPreview projectConfig;
               services := ldServices st |}, None)
  end.

(** The files matched by the patterns, each with its configuration, in the
    order of the two loops. *)
Definition matchedFiles (E : Outside) (specs : list ServiceConfiguration)
  : list (ServiceConfiguration * string) :=
  flat_map (fun serviceSpec =>
              List.map (fun f => (serviceSpec, f))
                (fst (Glob E (filepathJoin E (scBasedir serviceSpec) (scMatch serviceSpec)))))
    specs.

(** What identifies a service, and what it is for a matched file. *)
Definition serviceView (s : Service) : string * string * string :=
  (Name s, filepath s, startCmd s).

Definition expectedView (E : Outside) (pc : ProjectConfiguration)
    (x : ServiceConfiguration * string) : string * string * string :=
  (pathToNormalizedServiceName (pcName pc) (filepathJoin E (pcDirectory pc) (snd x)),
   fst (filepathRel E (scBasedir (fst x)) (snd x)),
   scStart (fst x)).

(** The files seen so far are recorded in [matches], once each. *)
Definition seenOk (st : Loaded) (seen : list string) : Prop :=
  NoDup seen /\
  forall f, In f seen -> exists m, ldMatches st !! f = Some m /\ m <> "".

(** A small world for exercising [fromProjectConfiguration]: two files
    under [services], one under [jobs]. *)
Definition sampleOutside : Outside :=
  {| Glob := fun pattern =>
       if String.eqb pattern "services/*.ts" then (["services/a.ts"; "services/b.ts"], None)
       else if String.eqb pattern "services/a.*" then (["services/a.ts"], None)
       else if String.eqb pattern "jobs/*.py" then (["jobs/nightly.py"], None)
       else ([], None);
     filepathJoin := fun a b => if String.eqb a "." then b else a ++ "/" ++ b;
     filepathRel := fun base target =>
       if HasPrefix target (base ++ "/")
       then (String.substring (String.length base + 1)
               (String.length target - String.length base - 1) target, None)
       else (target, None);
     NewBuildContext := fun _ _ _ _ _ => None |}.

Definition sampleConfiguration : ProjectConfiguration :=
  {| pcName := "shop"; pcDirectory := ".";
     pcServices :=
       [ {| scBasedir := "services"; scMatch := "*.ts"; scRuntime := "";
            scType := ""; scStart := "npm run dev" |};
         {| scBasedir := "jobs"; scMatch := "*.py"; scRuntime := "";
            scType := "job"; scStart := "" |} ];
     pcRuntimes := ∅;
     pcPreview := ["sql-databases"] |}.

(** ** What a run of the builds has returned *)

(** The results returned by the [BuildImage] of the service of index [i] in
    the run [acts], in order. *)
Definition returnsOf (i : nat) (acts : list Action) : list (option error) :=
  omap (fun a => match a with
                 | aReturn k err => if Nat.eqb k i then Some err else None
                 | _ => None
                 end) acts.

(** How the results returned in a run and the terminal updates on the stream
    fit where a goroutine stands: nothing returned before the build is over;
    one result, not yet reported, before the send; past the send, that
    result reported by one terminal update. *)
Definition runOk (svc : Service) (pc : workerPC)
    (rs : list (option error)) (fs : list ServiceBuildUpdate) : Prop :=
  match pc with
  | wNotStarted | wAcquire | wBuilding => rs = []
  | wSend err => rs = [err]
  | wRelease | wDone | wExited => exists err, rs = [err] /\ fs = [finalUpdate svc err]
  end.

Definition RunInv (svcs : list Service) (acts : list Action) (s : BuildState) : Prop :=
  forall i pc svc, workerPcs s !! i = Some pc -> svcs !! i = Some svc ->
    runOk svc pc (returnsOf i acts) (finalsOf i (sent s)).

(** The update of a failed build. *)
Definition errorUpdate (svc : Service) (err : error) : ServiceBuildUpdate :=
  {| ServiceName := Name svc; Err := Some err; Message := Error err;
     Status := ServiceBuildStatus_Error |}.

(** All goroutines launched, the first inside [BuildImage], the others
    waiting for a permit. *)
Definition sampleFirst : list Action := [aMain; aMain; aMain; aMain; aWorker 0].

(** [normalizePath] and [pathToNormalizedServiceName] with the lower-casing
    left open, to state what holds of them for every lower-casing that
    behaves as [strings.ToLower] does, beyond ASCII too. *)
Definition normalizePathWith (lower : string -> string) (path : string) : string :=
  Join (List.map (fun part => if HasPrefix part ":" then ":param" else lower part)
          (SplitPath path)) "/".

Definition pathToNormalizedServiceNameWith (lower : string -> string)
    (name : string) (servicePath : string) : string :=
  let servicePath := name ++ "_" ++ servicePath in
  let servicePath := ReplaceAll servicePath "/" "-" in
  let servicePath := ReplaceAll servicePath (Ext servicePath) "" in
  let servicePath := ReplaceAll servicePath "." "-" in
  let servicePath := ReplaceAll servicePath "[^\w]" "-" in
  lower servicePath.

(** * Properties *)

(** ** Strings and paths *)

Lemma lowerByte_idem c : lowerByte (lowerByte c) = lowerByte c.
Proof. destruct c as [[] [] [] [] [] [] [] []]; reflexivity. Qed.

Lemma lowerByte_slash c : Ascii.eqb (lowerByte c) slash = Ascii.eqb c slash.
Proof. destruct c as [[] [] [] [] [] [] [] []]; reflexivity. Qed.

Lemma lowerByte_colon c :
  HasPrefix (String (lowerByte c) "") ":" = HasPrefix (String c "") ":".
Proof. destruct c as [[] [] [] [] [] [] [] []]; reflexivity. Qed.

Lemma ToLower_idem s : ToLower (ToLower s) = ToLower s.
Proof.
  induction s as [|c s IH]; simpl; [reflexivity|].
  now rewrite lowerByte_idem, IH.
Qed.

Lemma ToLower_slashFree s : slashFree (ToLower s) = slashFree s.
Proof.
  induction s as [|c s IH]; simpl; [reflexivity|].
  now rewrite lowerByte_slash, IH.
Qed.

Lemma ToLower_nonEmpty s : nonEmpty (ToLower s) = nonEmpty s.
Proof. destruct s; reflexivity. Qed.

Lemma HasPrefix_colon_head c s :
  HasPrefix (String c s) ":" = HasPrefix (String c "") ":".
Proof.
  simpl. destruct s; reflexivity.
Qed.

Lemma ToLower_colon s : HasPrefix (ToLower s) ":" = HasPrefix s ":".
Proof.
  destruct s as [|c s]; [reflexivity|].
  change (ToLower (String c s)) with (String (lowerByte c) (ToLower s)).
  rewrite HasPrefix_colon_head, lowerByte_colon.
  symmetry; apply HasPrefix_colon_head.
Qed.

Lemma normalizePart_idem part :
  normalizePart (normalizePart part) = normalizePart part.
Proof.
  unfold normalizePart.
  destruct (HasPrefix part ":") eqn:Hp; [reflexivity|].
  now rewrite ToLower_colon, Hp, ToLower_idem.
Qed.

Lemma normalizePart_segment part :
  segment part = true -> segment (normalizePart part) = true.
Proof.
  unfold normalizePart, segment.
  destruct (HasPrefix part ":"); [reflexivity|].
  now rewrite ToLower_nonEmpty, ToLower_slashFree.
Qed.

Lemma splitSlash_not_nil s : splitSlash s <> [].
Proof.
  destruct s as [|c s]; simpl; [discriminate|].
  destruct (Ascii.eqb c slash); [discriminate|].
  destruct (splitSlash s); discriminate.
Qed.

Lemma splitSlash_slashFree s : Forall (fun x => slashFree x = true) (splitSlash s).
Proof.
  induction s as [|c s IH]; simpl.
  - repeat constructor.
  - destruct (Ascii.eqb c slash) eqn:Hc.
    + constructor; [reflexivity|assumption].
    + destruct (splitSlash s) as [|piece rest]; [repeat constructor; simpl; now rewrite Hc|].
      inversion IH as [|? ? Hpiece Hrest]; subst.
      constructor; [simpl; now rewrite Hc, Hpiece|assumption].
Qed.

Lemma SplitPath_segments p : Forall (fun x => segment x = true) (SplitPath p).
Proof.
  unfold SplitPath.
  induction (splitSlash_slashFree p) as [|x l Hx Hl IH]; simpl; [constructor|].
  destruct (nonEmpty x) eqn:Hn; [|assumption].
  constructor; [unfold segment; now rewrite Hn, Hx|assumption].
Qed.

Lemma splitSlash_free a : slashFree a = true -> splitSlash a = [a].
Proof.
  induction a as [|c a IH]; simpl; [reflexivity|].
  intros H; apply andb_prop in H as [Hc Ha].
  apply negb_true_iff in Hc; rewrite Hc.
  now rewrite (IH Ha).
Qed.

Lemma splitSlash_app a rest :
  slashFree a = true ->
  splitSlash (a ++ String slash rest) = a :: splitSlash rest.
Proof.
  induction a as [|c a IH]; simpl; [reflexivity|].
  intros H; apply andb_prop in H as [Hc Ha].
  apply negb_true_iff in Hc; rewrite Hc.
  now rewrite (IH Ha).
Qed.

(** Splitting undoes joining, for lists of segments. *)
Lemma SplitPath_Join l :
  Forall (fun x => segment x = true) l -> SplitPath (Join l "/") = l.
Proof.
  unfold SplitPath.
  induction 1 as [|a l Ha Hl IH]; [reflexivity|].
  apply andb_prop in Ha as [Hne Hfree].
  destruct l as [|b l'].
  - simpl. rewrite (splitSlash_free _ Hfree); simpl. now rewrite Hne.
  - change (Join (a :: b :: l') "/") with (a ++ String slash (Join (b :: l') "/")).
    rewrite (splitSlash_app _ _ Hfree).
    cbn [List.filter]. rewrite Hne. f_equal. exact IH.
Qed.

Lemma normalized_segments p :
  Forall (fun x => segment x = true) (List.map normalizePart (SplitPath p)).
Proof.
  apply List.Forall_map.
  eapply List.Forall_impl; [|apply SplitPath_segments].
  intros x; apply normalizePart_segment.
Qed.

(** C6. Path normalization is idempotent: normalizing a normalized path
    gives it back, for every path. *)
Theorem normalizePath_idempotent (p : string) :
  normalizePath (normalizePath p) = normalizePath p.
Proof.
  unfold normalizePath at 1 3.
  unfold normalizePath.
  rewrite SplitPath_Join by apply normalized_segments.
  rewrite List.map_map.
  f_equal. apply List.map_ext. intros; apply normalizePart_idem.
Qed.

(** The same holds if empty segments were kept by the split. *)
Lemma splitSlash_Join l :
  l <> [] -> Forall (fun x => slashFree x = true) l ->
  splitSlash (Join l "/") = l.
Proof.
  intros Hl H. induction H as [|a l Ha _ IH]; [congruence|].
  destruct l as [|b l'].
  - simpl. now apply splitSlash_free.
  - change (Join (a :: b :: l') "/") with (a ++ String slash (Join (b :: l') "/")).
    rewrite (splitSlash_app _ _ Ha). f_equal. apply IH. discriminate.
Qed.

Lemma normalizePart_slashFree part :
  slashFree part = true -> slashFree (normalizePart part) = true.
Proof.
  unfold normalizePart. destruct (HasPrefix part ":"); [reflexivity|].
  now rewrite ToLower_slashFree.
Qed.

Lemma normalize_idempotent_keeping_empty_segments p :
  let normalize q := Join (List.map normalizePart (splitSlash q)) "/" in
  normalize (normalize p) = normalize p.
Proof.
  intros normalize; unfold normalize.
  rewrite splitSlash_Join.
  - rewrite List.map_map. f_equal. apply List.map_ext. intros; apply normalizePart_idem.
  - pose proof (splitSlash_not_nil p). destruct (splitSlash p); [congruence|discriminate].
  - apply List.Forall_map.
    eapply List.Forall_impl; [|apply splitSlash_slashFree].
    intros x; apply normalizePart_slashFree.
Qed.

(** Nor does it depend on how letters outside ASCII are lower-cased: any
    lower-casing that is idempotent, maps segments to segments and leaves the
    first byte a colon or not a colon, gives an idempotent normalization. *)
Section AnyLowerCasing.

Variable lower : string -> string.
Hypothesis lower_idem : forall s, lower (lower s) = lower s.
Hypothesis lower_segment : forall s, segment s = true -> segment (lower s) = true.
Hypothesis lower_colon : forall s, HasPrefix (lower s) ":" = HasPrefix s ":".

Lemma normalize_idempotent_any_lower p :
  let part x := if HasPrefix x ":" then ":param" else lower x in
  let normalize q := Join (List.map part (SplitPath q)) "/" in
  normalize (normalize p) = normalize p.
Proof.
  intros part normalize; unfold normalize.
  rewrite SplitPath_Join.
  - rewrite List.map_map. f_equal. apply List.map_ext. intros x. unfold part.
    destruct (HasPrefix x ":") eqn:Hx; [reflexivity|].
    now rewrite lower_colon, Hx, lower_idem.
  - apply List.Forall_map.
    eapply List.Forall_impl; [|apply SplitPath_segments].
    intros x Hx. unfold part. destruct (HasPrefix x ":"); [reflexivity|].
    now apply lower_segment.
Qed.

End AnyLowerCasing.

(** ** The Api registry *)

Lemma sharesMethod_spec ms1 ms2 :
  sharesMethod ms1 ms2 = true <-> exists m, In m ms1 /\ In m ms2.
Proof.
  unfold sharesMethod. rewrite existsb_exists. split.
  - intros (a & Ha & Hex). apply existsb_exists in Hex as (b & Hb & Hab).
    apply String.eqb_eq in Hab; subst. eauto.
  - intros (m & H1 & H2). exists m; split; [assumption|].
    apply existsb_exists. exists m; split; [assumption|apply String.eqb_refl].
Qed.

(** [matchingWorkers] decides the spec's collision. *)
Lemma matchingWorkers_collide a b : matchingWorkers a b = true <-> collide a b.
Proof.
  unfold matchingWorkers, collide.
  destruct (String.eqb_spec (normalizePath (GetPath a)) (normalizePath (GetPath b))) as [Heq|Hne].
  - rewrite sharesMethod_spec. tauto.
  - split; [discriminate|tauto].
Qed.

Lemma existing_collision (a : Api) w :
  existsb (fun existing => matchingWorkers existing w) (workers a) = true <->
  exists e, In e (workers a) /\ collide e w.
Proof.
  rewrite existsb_exists. split; intros (e & He & Hc); exists e; split; auto;
    now apply matchingWorkers_collide.
Qed.

(** [AddWorker] either drops the worker and records the conflict, or appends
    it. *)
Lemma AddWorker_cases (a : Api) (w : option ApiWorker) :
  ((exists e, In e (workers a) /\ collide e w) /\
   workers (AddWorker a w) = workers a /\
   errors (parent (AddWorker a w)) = (errors (parent a) ++ [overlapMessage])%list)
  \/
  (~ (exists e, In e (workers a) /\ collide e w) /\
   workers (AddWorker a w) = (workers a ++ [w])%list /\
   parent (AddWorker a w) = parent a).
Proof.
  unfold AddWorker.
  destruct (existsb (fun existing => matchingWorkers existing w) (workers a)) eqn:Hex.
  - left. apply existing_collision in Hex. simpl. auto.
  - right. simpl. repeat split.
    intros Hc. apply existing_collision in Hc. congruence.
Qed.

(** C2. [AddWorker a w] does one of two things: when a worker of [a]
    collides with [w] (equal normalized paths and a shared method) the
    worker list stays as it is and the conflict message is appended to the
    errors of the owner; otherwise [w] is appended, the count grows by one
    and the owner is untouched. It returns an Api in both cases. *)
Theorem AddWorker_drop_or_append (a : Api) (w : option ApiWorker) :
  ((exists e, In e (workers a) /\ collide e w) /\
   workers (AddWorker a w) = workers a /\
   length (workers (AddWorker a w)) = length (workers a) /\
   errors (parent (AddWorker a w)) = (errors (parent a) ++ [overlapMessage])%list)
  \/
  (~ (exists e, In e (workers a) /\ collide e w) /\
   workers (AddWorker a w) = (workers a ++ [w])%list /\
   length (workers (AddWorker a w)) = S (length (workers a)) /\
   parent (AddWorker a w) = parent a).
Proof.
  destruct (AddWorker_cases a w) as [(Hc & Hw & He)|(Hc & Hw & Hp)].
  - left. rewrite Hw. auto.
  - right. rewrite Hw, length_app. simpl. repeat split; auto; lia.
Qed.

(** Calls that do not write under [name] leave what is stored there. *)
Lemma security_kept name cs : forall a,
  Forall (fun c => setsSecurity name c = false) cs ->
  security (calls a cs) !! name = security a !! name.
Proof.
  unfold calls. induction cs as [|c cs IH]; intros a H; simpl; [reflexivity|].
  inversion H as [|? ? Hc Hcs]; subst. rewrite (IH _ Hcs).
  destruct c as [w|n sd|n scopes]; simpl in *.
  - unfold AddWorker. now destruct (existsb _ _).
  - reflexivity.
  - apply String.eqb_neq in Hc. destruct scopes; simpl; now rewrite lookup_insert_ne.
Qed.

Lemma securityDefinition_kept name cs : forall a,
  Forall (fun c => setsSecurityDefinition name c = false) cs ->
  securityDefinitions (calls a cs) !! name = securityDefinitions a !! name.
Proof.
  unfold calls. induction cs as [|c cs IH]; intros a H; simpl; [reflexivity|].
  inversion H as [|? ? Hc Hcs]; subst. rewrite (IH _ Hcs).
  destruct c as [w|n sd|n scopes]; simpl in *.
  - unfold AddWorker. now destruct (existsb _ _).
  - apply String.eqb_neq in Hc. now rewrite lookup_insert_ne.
  - now destruct scopes.
Qed.

(** C5. [AddSecurity a name nil] leaves an empty list of scopes under
    [name], an entry that is present; and with [AddSecurity] as with
    [AddSecurityDefinition] the last call for a name decides what is stored
    under it: a second call replaces the first, and the value stays through
    any later calls that are not for that name. *)
Theorem AddSecurity_nil_and_last_write (a : Api) (name : string) :
  security (AddSecurity a name None) !! name = Some [] /\
  (forall s1 s2,
     security (AddSecurity (AddSecurity a name s1) name s2) !! name
       = Some (default [] s2) /\
     AddSecurity (AddSecurity a name s1) name s2 = AddSecurity a name s2) /\
  (forall d1 d2,
     securityDefinitions (AddSecurityDefinition (AddSecurityDefinition a name d1) name d2) !! name
       = Some d2 /\
     AddSecurityDefinition (AddSecurityDefinition a name d1) name d2
       = AddSecurityDefinition a name d2) /\
  (forall scopes later,
     Forall (fun c => setsSecurity name c = false) later ->
     security (calls (AddSecurity a name scopes) later) !! name
       = Some (default [] scopes)) /\
  (forall sd later,
     Forall (fun c => setsSecurityDefinition name c = false) later ->
     securityDefinitions (calls (AddSecurityDefinition a name sd) later) !! name
       = Some sd).
Proof.
  split; [|split; [|split; [|split]]].
  - simpl. apply lookup_insert_eq.
  - intros s1 s2; split.
    + destruct s2; simpl; apply lookup_insert_eq.
    + destruct s1, s2; unfold AddSecurity; simpl; now rewrite insert_insert_eq.
  - intros d1 d2; split.
    + simpl. apply lookup_insert_eq.
    + unfold AddSecurityDefinition; simpl. now rewrite insert_insert_eq.
  - intros scopes later H. rewrite (security_kept _ _ _ H).
    destruct scopes; simpl; apply lookup_insert_eq.
  - intros sd later H. rewrite (securityDefinition_kept _ _ _ H).
    simpl. apply lookup_insert_eq.
Qed.

(** C10. Each operation of the Api changes its own field only. [AddWorker]
    leaves both security maps as they are and keeps the old workers, in
    order, as a prefix of the new list. [AddSecurity] and
    [AddSecurityDefinition] leave the workers, the owner and the other map
    as they are, and under every other name their own map holds what it
    held. *)
Theorem Api_operations_frame (a : Api) :
  (forall w,
     securityDefinitions (AddWorker a w) = securityDefinitions a /\
     security (AddWorker a w) = security a /\
     exists added, workers (AddWorker a w) = (workers a ++ added)%list) /\
  (forall name scopes,
     workers (AddSecurity a name scopes) = workers a /\
     securityDefinitions (AddSecurity a name scopes) = securityDefinitions a /\
     parent (AddSecurity a name scopes) = parent a /\
     forall other, other <> name ->
       security (AddSecurity a name scopes) !! other = security a !! other) /\
  (forall name sd,
     workers (AddSecurityDefinition a name sd) = workers a /\
     security (AddSecurityDefinition a name sd) = security a /\
     parent (AddSecurityDefinition a name sd) = parent a /\
     forall other, other <> name ->
       securityDefinitions (AddSecurityDefinition a name sd) !! other
         = securityDefinitions a !! other).
Proof.
  split; [|split].
  - intros w. unfold AddWorker.
    destruct (existsb _ _); simpl; repeat split.
    + exists []. now rewrite app_nil_r.
    + now exists [w].
  - intros name [scopes|]; simpl; repeat split;
      intros other Hne; now rewrite lookup_insert_ne.
  - intros name sd; simpl; repeat split.
    intros other Hne; now rewrite lookup_insert_ne.
Qed.

(** A segment that starts with a colon is a parameter, whatever its name. *)
Lemma normalizePath_users_param n :
  slashFree n = true -> normalizePath ("/users/:" ++ n) = "users/:param".
Proof.
  intros Hn. unfold normalizePath, SplitPath.
  change ("/users/:" ++ n) with (String slash ("users" ++ String slash (String ":" n))).
  change (splitSlash (String slash ("users" ++ String slash (String ":" n))))
    with ("" :: splitSlash ("users" ++ String slash (String ":" n))).
  rewrite splitSlash_app by reflexivity.
  rewrite splitSlash_free by (simpl; exact Hn).
  reflexivity.
Qed.

(** C1, as the spec words it, fails: a segment in braces is no parameter for
    [normalizePath], so the two workers below, which share GET, do not
    collide and both are kept, with no conflict recorded. *)
Lemma brace_segments_do_not_collide :
  let w1 := Some {| Path := "/users/{id}"; Methods := ["GET"]; Target := "list" |} in
  let w2 := Some {| Path := "/users/{userId}"; Methods := ["GET"]; Target := "read" |} in
  let a := AddWorker (AddWorker (newApi {| errors := [] |}) w1) w2 in
  (exists m, In m (GetMethods w1) /\ In m (GetMethods w2)) /\
  normalizePath (GetPath w1) = "users/{id}" /\
  normalizePath (GetPath w2) = "users/{userid}" /\
  matchingWorkers w1 w2 = false /\
  workers a = [w1; w2] /\
  errors (parent a) = [].
Proof.
  repeat split; try reflexivity.
  exists "GET"; simpl; auto.
Qed.

(** C1, amended. Parameters are the segments that start with a colon. Two
    workers on [/users/:n1] and [/users/:n2], whatever the names [n1] and
    [n2] (for instance [/users/:id] and [/users/:userId]), collide exactly
    when they share a method. If they do and the first is in the Api, adding
    the second leaves the worker list as it is and records the conflict. If
    they share none and neither collides with a worker of the Api, adding
    both appends both. *)
Theorem colon_parameters_collide (a : Api) (w1 w2 : ApiWorker) (n1 n2 : string) :
  slashFree n1 = true -> slashFree n2 = true ->
  Path w1 = "/users/:" ++ n1 -> Path w2 = "/users/:" ++ n2 ->
  ((exists m, In m (Methods w1) /\ In m (Methods w2)) ->
     matchingWorkers (Some w1) (Some w2) = true /\
     (In (Some w1) (workers a) ->
        workers (AddWorker a (Some w2)) = workers a /\
        errors (parent (AddWorker a (Some w2)))
          = (errors (parent a) ++ [overlapMessage])%list)) /\
  (~ (exists m, In m (Methods w1) /\ In m (Methods w2)) ->
     matchingWorkers (Some w1) (Some w2) = false /\
     (~ (exists e, In e (workers a) /\ (collide e (Some w1) \/ collide e (Some w2))) ->
        workers (AddWorker (AddWorker a (Some w1)) (Some w2))
          = (workers a ++ [Some w1; Some w2])%list)).
Proof.
  intros Hn1 Hn2 Hp1 Hp2.
  assert (Hpath : normalizePath (GetPath (Some w1)) = normalizePath (GetPath (Some w2))).
  { simpl. rewrite Hp1, Hp2. now rewrite !normalizePath_users_param. }
  split.
  - intros Hshare.
    assert (Hm : matchingWorkers (Some w1) (Some w2) = true).
    { apply matchingWorkers_collide. split; assumption. }
    split; [exact Hm|].
    intros Hin.
    destruct (AddWorker_cases a (Some w2)) as [(_ & Hw & He)|(Hno & _)].
    + auto.
    + exfalso. apply Hno. exists (Some w1). split; [assumption|].
      now apply matchingWorkers_collide.
  - intros Hdisj.
    assert (Hm : matchingWorkers (Some w1) (Some w2) = false).
    { destruct (matchingWorkers (Some w1) (Some w2)) eqn:E; [|reflexivity].
      apply matchingWorkers_collide in E as [_ E]. contradiction. }
    split; [exact Hm|].
    intros Hfree.
    destruct (AddWorker_cases a (Some w1)) as [((e & He & Hc) & _)|(_ & Hw1 & _)].
    { exfalso. apply Hfree. eauto. }
    destruct (AddWorker_cases (AddWorker a (Some w1)) (Some w2))
      as [((e & He & Hc) & _)|(_ & Hw2 & _)].
    { exfalso. rewrite Hw1 in He. apply in_app_or in He as [He|[He|[]]].
      - apply Hfree. eauto.
      - subst e. apply matchingWorkers_collide in Hc. congruence. }
    rewrite Hw2, Hw1, <- app_assoc. reflexivity.
Qed.

Lemma colon_parameters_collide_witness :
  let w1 := {| Path := "/users/:id"; Methods := ["GET"; "PUT"]; Target := "list" |} in
  let w2 := {| Path := "/users/:userId"; Methods := ["GET"]; Target := "read" |} in
  let a := AddWorker (newApi {| errors := [] |}) (Some w1) in
  workers (AddWorker a (Some w2)) = [Some w1] /\
  errors (parent (AddWorker a (Some w2))) = [overlapMessage].
Proof.
  intros w1 w2 a.
  destruct (colon_parameters_collide a w1 w2 "id" "userId"
              eq_refl eq_refl eq_refl eq_refl) as [Hshare _].
  destruct Hshare as [_ Hdrop].
  - exists "GET"; simpl; auto.
  - apply Hdrop. simpl; auto.
Defined.

(** ** Requirement collection *)

(** A session that listens, runs its service to completion and sees no
    database declared succeeds. *)
Lemma collect_without_database p service w :
  listenErr w = None -> splitErr w = None -> runErr w = None ->
  declared w = [] ->
  collectServiceRequirements p service w
    = (Some (NewServiceRequirements (Name service) (GetFilePath service) (Type_ service)), None).
Proof.
  intros Hl Hs Hr Hd. unfold collectServiceRequirements.
  rewrite Hl, Hs, Hr, Hd. reflexivity.
Qed.

(** C4, as the spec words it, fails: the message of the error names the
    source file of the service only; the name of the service is not in it. *)
Lemma database_error_omits_service_name :
  let svc := {| Name := "shop_services-api"; Type_ := "default";
                filepath := "services/api.ts"; startCmd := "" |} in
  let p := {| ProjectName := "shop"; Directory := "."; Preview := [];
              services := [svc] |} in
  let w := {| listenErr := None; splitErr := None; declared := ["orders"];
              runErr := None |} in
  exists msg,
    collectServiceRequirements p svc w = (None, Some (errorString msg)) /\
    strContains msg (GetFilePath svc) = true /\
    strContains msg (Name svc) = false.
Proof.
  eexists. split; [reflexivity|]. split; vm_compute; reflexivity.
Qed.

(** C4, amended. When the service process has completed ([RunContainer]
    returned no error) having declared a database and the preview features
    of the project lack [sql-databases], the session fails with an error
    whose message names the service by its source file path. With the
    feature present, or with no database declared, the session succeeds and
    returns the requirements. *)
Theorem database_needs_preview_feature (p : Project) (service : Service) (w : Session) :
  listenErr w = None -> splitErr w = None -> runErr w = None ->
  (declared w <> [] /\ Contains (Preview p) Feature_SqlDatabases = false ->
     collectServiceRequirements p service w
       = (None, Some (errorString (databaseMessage (GetFilePath service)))) /\
     databaseMessage (GetFilePath service)
       = "service " ++ GetFilePath service ++
         " requires a database, but the project does not have the 'sql-databases' preview feature enabled. Please add sql-databases to the preview field of your nitric.yaml file to enable this feature") /\
  (declared w = [] \/ Contains (Preview p) Feature_SqlDatabases = true ->
     exists r, collectServiceRequirements p service w = (Some r, None) /\
               sqlDatabases r = declared w /\
               serviceName r = Name service /\
               serviceFile r = GetFilePath service).
Proof.
  intros Hl Hs Hr. unfold collectServiceRequirements.
  rewrite Hl, Hs, Hr. unfold HasDatabases. simpl.
  split.
  - intros [Hd Hc]. rewrite Hc.
    destruct (declared w); [congruence|]. simpl. split; reflexivity.
  - intros [Hd|Hc].
    + rewrite Hd. simpl. eexists; split; [reflexivity|]. simpl; auto.
    + rewrite Hc, andb_false_r. eexists; split; [reflexivity|]. simpl; auto.
Qed.

Lemma database_needs_preview_feature_witness :
  let svc := {| Name := "shop_services-api"; Type_ := "default";
                filepath := "services/api.ts"; startCmd := "" |} in
  let p := {| ProjectName := "shop"; Directory := "."; Preview := ["docker-providers"];
              services := [svc] |} in
  let w := {| listenErr := None; splitErr := None; declared := ["orders"];
              runErr := None |} in
  collectServiceRequirements p svc w
    = (None, Some (errorString (databaseMessage "services/api.ts"))).
Proof.
  intros svc p w.
  destruct (database_needs_preview_feature p svc w eq_refl eq_refl eq_refl) as [Hfail _].
  destruct Hfail as [H _]; [|exact H].
  split; [discriminate|reflexivity].
Defined.

(** A session returns requirements or an error, never both and never
    neither. *)
Lemma collect_result_shape p service w :
  (exists r, collectServiceRequirements p service w = (Some r, None)) \/
  (exists err, collectServiceRequirements p service w = (None, Some err)).
Proof.
  unfold collectServiceRequirements.
  destruct (listenErr w); [right; eauto|].
  destruct (splitErr w); [right; eauto|].
  destruct (runErr w); [right; eauto|].
  destruct (_ && _); [right|left]; eauto.
Qed.

(** What the goroutines leave in the two slices, for any order of their
    appends. *)
Lemma collect_fold p world order : forall c,
  fold_left (collectGoroutine p world) order c
  = {| allServiceRequirements :=
         (allServiceRequirements c ++ omap (appendedRequirements p world) order)%list;
       serviceErrors :=
         (serviceErrors c ++ omap (appendedError p world) order)%list |}.
Proof.
  induction order as [|i order IH]; intros c; simpl.
  - rewrite !app_nil_r. now destruct c.
  - rewrite IH. unfold collectGoroutine, appendedRequirements, appendedError, sessionOf.
    destruct (services p !! i) as [s|]; simpl; [|reflexivity].
    destruct (collectServiceRequirements p s (world i)) as [r [err|]]; simpl;
      now rewrite <- ?app_assoc.
Qed.

Lemma omap_nil_inv {A B} (f : A -> option B) l :
  omap f l = [] -> forall x, In x l -> f x = None.
Proof.
  induction l as [|a l IH]; simpl; [tauto|].
  destruct (f a) eqn:Hfa; [discriminate|].
  intros Hl x [->|Hx]; auto.
Qed.

Lemma omap_all_Some {A B} (f : A -> option B) (g : A -> B) l :
  (forall x, In x l -> f x = Some (g x)) -> omap f l = List.map g l.
Proof.
  induction l as [|a l IH]; simpl; [reflexivity|].
  intros H. rewrite (H a (or_introl eq_refl)). f_equal.
  apply IH. intros x Hx. apply H. now right.
Qed.

Lemma errorsJoin_Some errs :
  errs <> [] -> errorsJoin (List.map Some errs) = Some (joinError errs).
Proof.
  intros Hne. unfold errorsJoin.
  assert (Hid : omap id (List.map Some errs) = errs).
  { clear Hne. induction errs as [|e errs IH]; simpl; [reflexivity|].
    f_equal. exact IH. }
  rewrite Hid. destruct errs; [congruence|reflexivity].
Qed.

(** C3. Whatever the order in which the sessions finish: if at least one
    session fails, [CollectServicesRequirements] returns no requirements
    ([nil]) and one joined error that holds the error of every failing
    session, each once; if none fails it returns the requirements of every
    service, one per service, and no error. *)
Theorem CollectServicesRequirements_all_or_nothing
    (p : Project) (world : nat -> Session) (order : list nat) :
  schedule p order ->
  (sessionErrors p world <> [] ->
     exists errs,
       CollectServicesRequirements p world order = (None, Some (joinError errs)) /\
       Permutation errs (sessionErrors p world)) /\
  (sessionErrors p world = [] ->
     exists reqs,
       CollectServicesRequirements p world order = (Some reqs, None) /\
       Permutation reqs
         (List.map (fun i => fst (sessionOf p world i)) (seq 0 (length (services p)))) /\
       length reqs = length (services p) /\
       Forall (fun r => r <> None) reqs).
Proof.
  intros Hsched. unfold schedule in Hsched.
  unfold CollectServicesRequirements. rewrite collect_fold. simpl.
  assert (Herrs : Permutation (omap (appendedError p world) order) (sessionErrors p world)).
  { unfold sessionErrors. now rewrite Hsched. }
  split.
  - intros Hne.
    destruct (omap (appendedError p world) order) as [|e errs] eqn:He.
    + apply Permutation_nil in Herrs. congruence.
    + simpl. exists (e :: errs). split; [|assumption].
      f_equal. apply (errorsJoin_Some (e :: errs)). discriminate.
  - intros Hnil. rewrite Hnil in Herrs. apply Permutation_sym, Permutation_nil in Herrs.
    rewrite Herrs. simpl.
    assert (Hall : forall i, In i (seq 0 (length (services p))) ->
               appendedRequirements p world i = Some (fst (sessionOf p world i)) /\
               fst (sessionOf p world i) <> None).
    { intros i Hi. pose proof (omap_nil_inv _ _ Hnil i Hi) as Hnone.
      apply in_seq in Hi.
      unfold appendedError, appendedRequirements, sessionOf in *.
      destruct (services p !! i) as [s|] eqn:Hs.
      - destruct (collect_result_shape p s (world i)) as [[r Hr]|[err Hr]];
          rewrite Hr in *; simpl in *; [split; congruence|discriminate].
      - apply lookup_ge_None in Hs. lia. }
    assert (Hreqs : omap (appendedRequirements p world) (seq 0 (length (services p)))
                    = List.map (fun i => fst (sessionOf p world i)) (seq 0 (length (services p)))).
    { apply omap_all_Some. intros i Hi. now apply Hall. }
    assert (Hperm : Permutation (omap (appendedRequirements p world) order)
                      (List.map (fun i => fst (sessionOf p world i)) (seq 0 (length (services p))))).
    { rewrite <- Hreqs. now rewrite Hsched. }
    eexists; split; [reflexivity|]. split; [exact Hperm|]. split.
    + rewrite (Permutation_length Hperm), length_map, length_seq. reflexivity.
    + rewrite Hperm. apply List.Forall_map, List.Forall_forall.
      intros i Hi. now apply Hall.
Qed.

Lemma CollectServicesRequirements_all_or_nothing_witness :
  let svc n := {| Name := n; Type_ := "default"; filepath := n ++ ".ts"; startCmd := "" |} in
  let p := {| ProjectName := "shop"; Directory := "."; Preview := [];
              services := [svc "a"; svc "b"; svc "c"] |} in
  let ok := {| listenErr := None; splitErr := None; declared := []; runErr := None |} in
  let failing := {| listenErr := None; splitErr := None; declared := [];
                    runErr := Some (errorString "exit status 1") |} in
  let world i := if Nat.eqb i 1 then failing else ok in
  exists errs,
    CollectServicesRequirements p world [2; 0; 1] = (None, Some (joinError errs)) /\
    Permutation errs [errorString "exit status 1"].
Proof.
  intros svc p ok failing world.
  assert (Hsched : schedule p [2; 0; 1]).
  { unfold schedule; simpl.
    apply (Permutation_cons_app [0; 1] [] 2), Permutation_refl. }
  destruct (CollectServicesRequirements_all_or_nothing p world [2; 0; 1] Hsched) as [Hfail _].
  apply Hfail. discriminate.
Defined.

(** ** Building the services *)

Lemma countPc_insert f (l : list workerPC) i old new :
  l !! i = Some old ->
  countPc f (<[i := new]> l) + (if f old then 1 else 0)
  = countPc f l + (if f new then 1 else 0).
Proof.
  revert i. induction l as [|pc l IH]; intros [|i] H; simpl in *; try discriminate.
  - injection H as ->. lia.
  - specialize (IH i H). lia.
Qed.

Lemma countPc_pos f (l : list workerPC) i pc :
  l !! i = Some pc -> f pc = true -> 1 <= countPc f l.
Proof.
  revert i. induction l as [|x l IH]; intros [|i] H E; simpl in *; try discriminate.
  - injection H as ->. rewrite E. lia.
  - specialize (IH i H E). lia.
Qed.

Lemma countPc_implies (f g : workerPC -> bool) l :
  (forall pc, f pc = true -> g pc = true) -> countPc f l <= countPc g l.
Proof.
  intros H. induction l as [|x l IH]; simpl; [lia|].
  destruct (f x) eqn:E; [rewrite (H x E)|destruct (g x)]; lia.
Qed.

Lemma countPc_all_exited f (l : list workerPC) :
  (forall j pc, l !! j = Some pc -> pc = wExited) -> f wExited = false ->
  countPc f l = 0.
Proof.
  intros H E. induction l as [|x l IH]; simpl; [reflexivity|].
  rewrite (H 0 x eq_refl), E. simpl. apply IH.
  intros j pc Hj. apply (H (S j)). exact Hj.
Qed.

Lemma countPc_all (f : workerPC -> bool) (l : list workerPC) :
  (forall j pc, l !! j = Some pc -> f pc = true) -> countPc f l = length l.
Proof.
  intros H. induction l as [|x l IH]; simpl; [reflexivity|].
  rewrite (H 0 x eq_refl). simpl. f_equal. apply IH.
  intros j pc Hj. apply (H (S j)). exact Hj.
Qed.

Lemma finalsOf_app j l i u :
  finalsOf j (l ++ [(i, u)])
  = (finalsOf j l ++ (if Nat.eqb i j && terminal u then [u] else []))%list.
Proof.
  unfold finalsOf. rewrite List.filter_app, List.map_app. simpl.
  destruct (Nat.eqb i j && terminal u); reflexivity.
Qed.

Lemma terminalCount_app l i u :
  terminalCount (l ++ [(i, u)]) = terminalCount l + (if terminal u then 1 else 0).
Proof.
  unfold terminalCount. rewrite List.filter_app, length_app. simpl.
  destruct (terminal u); reflexivity.
Qed.

Lemma terminal_finalUpdate svc err : terminal (finalUpdate svc err) = true.
Proof. destruct err; reflexivity. Qed.

Lemma finalUpdate_name svc err : ServiceName (finalUpdate svc err) = Name svc.
Proof. destruct err; reflexivity. Qed.

Section BuildInvariant.

Variable cap : nat.
Variable svcs : list Service.

Lemma Inv_init : Inv cap svcs (initBuild svcs).
Proof.
  assert (Hrep : forall j pc, replicate (length svcs) wNotStarted !! j = Some pc ->
                              pc = wNotStarted).
  { intros j pc H. apply lookup_replicate in H. tauto. }
  assert (Hcount : forall f, f wNotStarted = false ->
                             countPc f (replicate (length svcs) wNotStarted) = 0).
  { intros f Hf. clear Hrep. induction (length svcs) as [|n IH]; simpl; [reflexivity|].
    rewrite Hf. exact IH. }
  constructor; simpl; try reflexivity; try lia; try discriminate.
  - apply length_replicate.
  - now rewrite Hcount.
  - now rewrite Hcount.
  - intros j pc H. rewrite (Hrep j pc H). split; [reflexivity|].
    intros Hlt; lia.
  - intros j pc svc H _. now rewrite (Hrep j pc H).
  - unfold terminalCount; simpl. now rewrite Hcount.
  - constructor.
Qed.

(** A launched goroutine that has not exited keeps the closing goroutine in
    [waitGroup.Wait()], and the channel open. *)
Lemma active_worker_blocks_close s i pc :
  Inv cap svcs s -> workerPcs s !! i = Some pc -> pc <> wExited ->
  pastWait (closerPc s) = false /\ closedChan s = false.
Proof.
  intros I Hi Hne.
  assert (Hp : pastWait (closerPc s) = false).
  { destruct (pastWait (closerPc s)) eqn:E; [|reflexivity].
    exfalso. apply Hne. eapply inv_closer; eauto. }
  split; [exact Hp|].
  rewrite (inv_closed _ _ _ I). destruct (closerPc s); simpl in Hp; congruence.
Qed.

(** The effect on the invariant of a goroutine moving from [old] to [new],
    with or without sending its terminal update. *)
Lemma Inv_worker_move s s' i old new :
  Inv cap svcs s ->
  workerPcs s !! i = Some old -> inWaitGroup old = true -> new <> wNotStarted ->
  mainPc s' = mainPc s -> closerPc s' = closerPc s ->
  closedChan s' = closedChan s -> panicked s' = panicked s ->
  workerPcs s' = <[i := new]> (workerPcs s) ->
  permits s' + (if holdsPermit old then 1 else 0)
    = permits s + (if holdsPermit new then 1 else 0) ->
  permits s' <= cap ->
  wgCounter s' + (if inWaitGroup old then 1 else 0)
    = wgCounter s + (if inWaitGroup new then 1 else 0) ->
  (sent s' = sent s /\ hasSentFinal old = hasSentFinal new) \/
  (exists svc err, svcs !! i = Some svc /\
                   sent s' = (sent s ++ [(i, finalUpdate svc err)])%list /\
                   hasSentFinal old = false /\ hasSentFinal new = true) ->
  Inv cap svcs s'.
Proof.
  intros I Hi Hold Hnew Hm Hc Hcl Hpa Hw Hperm Hcap Hwg Hsent.
  assert (Hne : old <> wExited) by (intros ->; discriminate).
  destruct (active_worker_blocks_close s i old I Hi Hne) as [Hpast _].
  pose proof (countPc_insert holdsPermit _ i old new Hi) as Ch.
  pose proof (countPc_insert inWaitGroup _ i old new Hi) as Cw.
  pose proof (countPc_insert hasSentFinal _ i old new Hi) as Cf.
  pose proof (inv_permits _ _ _ I) as Ip. pose proof (inv_wg _ _ _ I) as Iw.
  pose proof (inv_total _ _ _ I) as It.
  constructor; rewrite ?Hm, ?Hc, ?Hcl, ?Hpa, ?Hw.
  - rewrite length_insert. apply I.
  - apply I.
  - lia.
  - exact Hcap.
  - lia.
  - apply I.
  - intros j pc Hj. apply list_lookup_insert_Some in Hj as [(-> & -> & _)|(Hij & Hj)].
    + pose proof (inv_spawn _ _ _ I _ _ Hi) as Hs. unfold spawnOk in *.
      destruct (mainPc s) as [k|]; [|exact Hnew].
      destruct Hs as [Hs1 Hs2]. split; [|intros _; exact Hnew].
      intros Hk. specialize (Hs1 Hk). subst old. discriminate.
    + eapply inv_spawn; eauto.
  - rewrite Hpast. discriminate.
  - apply I.
  - apply I.
  - intros j pc svc Hj Hsvc.
    apply list_lookup_insert_Some in Hj as [(-> & -> & _)|(Hij & Hj)].
    + pose proof (inv_finals _ _ _ I _ _ _ Hi Hsvc) as Hf. unfold finalsOk in *.
      destruct Hsent as [[-> <-]|(svc' & err & Hsvc' & -> & Ho & Hn)]; [exact Hf|].
      rewrite Ho in Hf. rewrite Hn, finalsOf_app, Hf, Nat.eqb_refl, terminal_finalUpdate.
      simpl. exists err. congruence.
    + pose proof (inv_finals _ _ _ I _ _ _ Hj Hsvc) as Hf.
      destruct Hsent as [[-> _]|(svc' & err & Hsvc' & -> & _)]; [exact Hf|].
      rewrite finalsOf_app. apply Nat.eqb_neq in Hij. rewrite Hij. simpl.
      now rewrite app_nil_r.
  - destruct Hsent as [[-> E]|(svc' & err & Hsvc' & -> & Ho & Hn)].
    + rewrite E in Cf. lia.
    + rewrite terminalCount_app, terminal_finalUpdate. rewrite Ho, Hn in Cf. lia.
  - destruct Hsent as [[-> _]|(svc' & err & Hsvc' & -> & _)]; [apply I|].
    apply Forall_app. split; [apply I|]. constructor; [|constructor].
    exists svc'. simpl. split; [assumption|apply finalUpdate_name].
Qed.

Lemma Inv_mainStep s s' :
  Inv cap svcs s -> mainStep svcs s = Some s' -> Inv cap svcs s'.
Proof.
  intros I H. unfold mainStep in H.
  pose proof (inv_main _ _ _ I) as Im.
  destruct (mainPc s) as [i|] eqn:Hm; [|discriminate].
  destruct (svcs !! i) as [svc|] eqn:Hsvc; injection H as <-.
  - (* launch the goroutine of service i *)
    assert (Hlt : i < length (workerPcs s)).
    { rewrite (inv_length _ _ _ I). eapply lookup_lt_Some; eauto. }
    destruct (lookup_lt_is_Some_2 _ _ Hlt) as [old Hi].
    assert (old = wNotStarted) as ->.
    { pose proof (inv_spawn _ _ _ I _ _ Hi) as Hs. rewrite Hm in Hs. apply Hs. lia. }
    pose proof (countPc_insert holdsPermit _ i _ wAcquire Hi) as Ch.
    pose proof (countPc_insert inWaitGroup _ i _ wAcquire Hi) as Cw.
    pose proof (countPc_insert hasSentFinal _ i _ wAcquire Hi) as Cf.
    simpl in Ch, Cw, Cf.
    pose proof (inv_permits _ _ _ I) as Ip. pose proof (inv_wg _ _ _ I) as Iw.
    pose proof (inv_total _ _ _ I) as It. pose proof (inv_cap _ _ _ I) as Ic.
    constructor; simpl.
    + rewrite length_insert. apply I.
    + apply I.
    + lia.
    + lia.
    + lia.
    + exact Im.
    + intros j pc Hj. apply list_lookup_insert_Some in Hj as [(-> & <- & _)|(Hij & Hj)].
      * split; [lia|discriminate].
      * pose proof (inv_spawn _ _ _ I _ _ Hj) as Hs. rewrite Hm in Hs.
        destruct Hs as [Hs1 Hs2]. split; intros; [apply Hs1|apply Hs2]; lia.
    + rewrite Im. discriminate.
    + apply I.
    + apply I.
    + intros j pc svc' Hj Hsvc'.
      apply list_lookup_insert_Some in Hj as [(-> & <- & _)|(Hij & Hj)].
      * apply (inv_finals _ _ _ I _ _ _ Hi Hsvc').
      * apply (inv_finals _ _ _ I _ _ _ Hj Hsvc').
    + lia.
    + apply I.
  - (* launch the closing goroutine and return *)
    apply lookup_ge_None in Hsvc.
    constructor; simpl; try apply I.
    + pose proof (inv_permits _ _ _ I) as Ip. rewrite Im in Ip. simpl in Ip. lia.
    + discriminate.
    + intros j pc Hj. pose proof (inv_spawn _ _ _ I _ _ Hj) as Hs. rewrite Hm in Hs.
      apply Hs. apply lookup_lt_Some in Hj. rewrite (inv_length _ _ _ I) in Hj. lia.
    + discriminate.
    + discriminate.
    + rewrite (inv_closed _ _ _ I), Im. reflexivity.
Qed.

Lemma Inv_workerStep s i s' :
  Inv cap svcs s -> workerStep cap svcs s i = Some s' -> Inv cap svcs s'.
Proof.
  intros I H. unfold workerStep in H.
  destruct (svcs !! i) as [svc|] eqn:Hsvc; [|discriminate].
  destruct (workerPcs s !! i) as [pc|] eqn:Hi; [|discriminate].
  pose proof (inv_cap _ _ _ I) as Ic.
  destruct pc as [| | |err| | |]; try discriminate.
  - (* acquire *)
    destruct (Nat.ltb_spec (permits s) cap) as [Hlt|]; [|discriminate].
    injection H as <-.
    eapply (Inv_worker_move s _ i wAcquire wBuilding); eauto; simpl;
      try reflexivity; try discriminate; try lia.
  - (* send the terminal update *)
    injection H as <-.
    destruct (active_worker_blocks_close s i _ I Hi) as [_ Hopen]; [discriminate|].
    unfold sendUpdate. rewrite Hopen.
    eapply (Inv_worker_move s _ i (wSend err) wRelease); eauto; simpl;
      try reflexivity; try discriminate; try lia.
    right. exists svc, err. auto.
  - (* release *)
    destruct (permits s) as [|n] eqn:Hp; [discriminate|].
    injection H as <-.
    eapply (Inv_worker_move s _ i wRelease wDone); eauto; simpl;
      try reflexivity; try discriminate; try lia.
  - (* waitGroup.Done *)
    pose proof (countPc_pos inWaitGroup _ _ _ Hi eq_refl) as Hpos.
    rewrite <- (inv_wg _ _ _ I) in Hpos.
    destruct (wgCounter s) as [|n] eqn:Hw; [lia|].
    injection H as <-.
    eapply (Inv_worker_move s _ i wDone wExited); eauto; simpl;
      try reflexivity; try discriminate; try lia.
Qed.

Lemma Inv_returnStep s i err s' :
  Inv cap svcs s -> returnStep s i err = Some s' -> Inv cap svcs s'.
Proof.
  intros I H. unfold returnStep in H.
  destruct (workerPcs s !! i) as [pc|] eqn:Hi; [|discriminate].
  destruct pc; try discriminate. injection H as <-.
  pose proof (inv_cap _ _ _ I) as Ic.
  eapply (Inv_worker_move s _ i wBuilding (wSend err)); eauto; simpl;
    try reflexivity; try discriminate; try lia.
Qed.

Lemma Inv_writeStep s i msg s' :
  Inv cap svcs s -> writeStep svcs s i msg = Some s' -> Inv cap svcs s'.
Proof.
  intros I H. unfold writeStep in H.
  destruct (svcs !! i) as [svc|] eqn:Hsvc; [|discriminate].
  destruct (workerPcs s !! i) as [pc|] eqn:Hi; [|discriminate].
  destruct pc; try discriminate. injection H as <-.
  destruct (active_worker_blocks_close s i _ I Hi) as [_ Hopen]; [discriminate|].
  unfold sendUpdate. rewrite Hopen.
  constructor; simpl; try apply I.
  - pose proof (inv_closed _ _ _ I) as Hcl. now rewrite Hopen in Hcl.
  - intros j pc svc' Hj Hsvc'. rewrite finalsOf_app. simpl.
    rewrite andb_false_r, app_nil_r. apply (inv_finals _ _ _ I _ _ _ Hj Hsvc').
  - rewrite terminalCount_app. simpl. rewrite Nat.add_0_r. apply I.
  - apply Forall_app. split; [apply I|]. constructor; [|constructor].
    exists svc. simpl. auto.
Qed.

Lemma Inv_closerStep s s' :
  Inv cap svcs s -> closerStep cap s = Some s' -> Inv cap svcs s'.
Proof.
  intros I H. unfold closerStep in H.
  pose proof (inv_main _ _ _ I) as Im.
  pose proof (inv_permits _ _ _ I) as Ip.
  pose proof (inv_closed _ _ _ I) as Icl.
  pose proof (inv_closer _ _ _ I) as Iex.
  pose proof (inv_drain _ _ _ I) as Idr.
  assert (Hm : closerPc s <> cNotStarted -> mainPc s = mReturned).
  { intros Hne. destruct (mainPc s); [contradiction|reflexivity]. }
  destruct (closerPc s) as [| |i|] eqn:Hc; try discriminate;
    rewrite Hm in * by discriminate; simpl in Ip.
  - (* waitGroup.Wait returns *)
    destruct (Nat.eqb_spec (wgCounter s) 0) as [Hw|]; [|discriminate].
    injection H as <-.
    constructor; simpl; rewrite ?Hm by discriminate.
    + apply I.
    + apply I.
    + lia.
    + apply I.
    + apply I.
    + discriminate.
    + intros j pc Hj. pose proof (inv_spawn _ _ _ I _ _ Hj) as Hs.
      now rewrite Hm in Hs by discriminate.
    + intros _ j pc Hj.
      pose proof (inv_spawn _ _ _ I _ _ Hj) as Hs. rewrite Hm in Hs by discriminate.
      simpl in Hs. rewrite (inv_wg _ _ _ I) in Hw.
      destruct pc; try congruence;
        pose proof (countPc_pos inWaitGroup _ _ _ Hj eq_refl); lia.
    + intros i [= <-]. lia.
    + exact Icl.
    + apply I.
    + apply I.
    + apply I.
  - specialize (Idr i eq_refl).
    destruct (Nat.ltb_spec i cap) as [Hlt|Hge].
    + (* one more token *)
      destruct (Nat.ltb_spec (permits s) cap) as [Hp|]; [|discriminate].
      injection H as <-.
      constructor; simpl; rewrite ?Hm by discriminate.
      * apply I.
      * apply I.
      * lia.
      * lia.
      * apply I.
      * discriminate.
      * intros j pc Hj. pose proof (inv_spawn _ _ _ I _ _ Hj) as Hs.
        now rewrite Hm in Hs by discriminate.
      * intros _. now apply Iex.
      * intros k [= <-]. lia.
      * exact Icl.
      * apply I.
      * apply I.
      * apply I.
    + (* close(updatesChan) *)
      injection H as <-.
      constructor; simpl; rewrite ?Hm by discriminate.
      * apply I.
      * apply I.
      * lia.
      * apply I.
      * apply I.
      * discriminate.
      * intros j pc Hj. pose proof (inv_spawn _ _ _ I _ _ Hj) as Hs.
        now rewrite Hm in Hs by discriminate.
      * intros _. now apply Iex.
      * discriminate.
      * reflexivity.
      * apply I.
      * apply I.
      * apply I.
Qed.

Lemma Inv_step s a s' :
  Inv cap svcs s -> step cap svcs s a = Some s' -> Inv cap svcs s'.
Proof.
  intros I H. unfold step in H. rewrite (inv_panic _ _ _ I) in H.
  destruct a.
  - eapply Inv_mainStep; eauto.
  - eapply Inv_workerStep; eauto.
  - eapply Inv_writeStep; eauto.
  - eapply Inv_returnStep; eauto.
  - eapply Inv_closerStep; eauto.
Qed.

Lemma Inv_exec acts : forall s s',
  Inv cap svcs s -> exec cap svcs s acts = Some s' -> Inv cap svcs s'.
Proof.
  induction acts as [|a acts IH]; intros s s' I H; simpl in H.
  - injection H as <-. exact I.
  - destruct (step cap svcs s a) as [s1|] eqn:Hs; [|discriminate].
    eapply IH; [|exact H]. eapply Inv_step; eauto.
Qed.

(** Every reachable state satisfies the invariant. *)
Lemma Inv_reachable s : reachable cap svcs s -> Inv cap svcs s.
Proof. intros [acts H]. eapply Inv_exec; [apply Inv_init|exact H]. Qed.

(** A goroutine inside [BuildImage] can always go on: whatever [BuildImage]
    returns, the terminal update is sent and the permit given back. *)
Lemma building_worker_finishes s i svc err :
  Inv cap svcs s -> svcs !! i = Some svc -> workerPcs s !! i = Some wBuilding ->
  exists s1 s2 s3,
    step cap svcs s (aReturn i err) = Some s1 /\
    step cap svcs s1 (aWorker i) = Some s2 /\
    step cap svcs s2 (aWorker i) = Some s3 /\
    sent s2 = (sent s ++ [(i, finalUpdate svc err)])%list /\
    panicked s2 = false /\ closedChan s2 = false /\
    sent s3 = sent s2 /\
    workerPcs s3 !! i = Some wDone /\
    S (permits s3) = permits s.
Proof.
  intros I Hsvc Hi.
  destruct (active_worker_blocks_close s i _ I Hi) as [_ Hopen]; [discriminate|].
  pose proof (inv_panic _ _ _ I) as Hpan.
  assert (Hlt : i < length (workerPcs s)) by (eapply lookup_lt_Some; eauto).
  pose proof (countPc_pos holdsPermit _ _ _ Hi eq_refl) as Hpos.
  pose proof (inv_permits _ _ _ I) as Ip.
  assert (Hp : exists n, permits s = S n).
  { destruct (permits s) as [|n]; [lia|eauto]. }
  destruct Hp as [n Hp].
  set (s1 := setWorker s i (wSend err)).
  set (s2 := setWorker (sendUpdate s1 i (finalUpdate svc err)) i wRelease).
  set (s3 := setWorker (setPermits s2 n) i wDone).
  assert (H1 : workerPcs s1 !! i = Some (wSend err)).
  { simpl. now apply list_lookup_insert_eq. }
  assert (Hs2 : sendUpdate s1 i (finalUpdate svc err)
                = {| mainPc := mainPc s; workerPcs := workerPcs s1;
                     closerPc := closerPc s; permits := permits s;
                     wgCounter := wgCounter s; closedChan := false;
                     sent := (sent s ++ [(i, finalUpdate svc err)])%list;
                     panicked := false |}).
  { unfold sendUpdate. simpl. rewrite Hopen, Hpan. reflexivity. }
  assert (H2 : workerPcs s2 !! i = Some wRelease).
  { unfold s2. rewrite Hs2. simpl. apply list_lookup_insert_eq.
    now rewrite length_insert. }
  exists s1, s2, s3. repeat split.
  - unfold step, returnStep. now rewrite Hpan, Hi.
  - unfold step, workerStep. simpl panicked. now rewrite Hpan, Hsvc, H1.
  - unfold step, workerStep. rewrite Hsvc, H2.
    unfold s2 at 1 2. rewrite Hs2. simpl. now rewrite Hp.
  - unfold s2. rewrite Hs2. reflexivity.
  - unfold s2. rewrite Hs2. reflexivity.
  - unfold s2. rewrite Hs2. reflexivity.
  - simpl. apply list_lookup_insert_eq. rewrite !length_insert.
    unfold sendUpdate. destruct (closedChan s1); simpl; now rewrite length_insert.
  - unfold s3, s2. rewrite Hs2. simpl. now rewrite Hp.
Qed.

(** Once the channel is closed nothing runs any more. *)
Lemma closed_is_final s a :
  Inv cap svcs s -> closedChan s = true -> step cap svcs s a = None.
Proof.
  intros I Hcl.
  pose proof (inv_closed _ _ _ I) as Icl. rewrite Hcl in Icl.
  destruct (closerPc s) eqn:Hc; try discriminate.
  assert (Hex : forall j pc, workerPcs s !! j = Some pc -> pc = wExited).
  { apply (inv_closer _ _ _ I). now rewrite Hc. }
  pose proof (inv_main _ _ _ I) as Im. rewrite Hc in Im.
  unfold step. destruct (panicked s); [reflexivity|].
  destruct a as [|i|i msg|i err|].
  - unfold mainStep. destruct (mainPc s); [discriminate|reflexivity].
  - unfold workerStep. destruct (svcs !! i); [|reflexivity].
    destruct (workerPcs s !! i) as [pc|] eqn:Hi; [|reflexivity].
    now rewrite (Hex _ _ Hi).
  - unfold writeStep. destruct (svcs !! i); [|reflexivity].
    destruct (workerPcs s !! i) as [pc|] eqn:Hi; [|reflexivity].
    now rewrite (Hex _ _ Hi).
  - unfold returnStep.
    destruct (workerPcs s !! i) as [pc|] eqn:Hi; [|reflexivity].
    now rewrite (Hex _ _ Hi).
  - unfold closerStep. now rewrite Hc.
Qed.

Lemma sumRank_insert (l : list workerPC) i old new :
  l !! i = Some old ->
  sumRank (<[i := new]> l) + rank old = sumRank l + rank new.
Proof.
  revert i. induction l as [|pc l IH]; intros [|i] H; simpl in *; try discriminate.
  - injection H as ->. lia.
  - specialize (IH i H). lia.
Qed.

Lemma countPc_exists f (l : list workerPC) :
  0 < countPc f l -> exists i pc, l !! i = Some pc /\ f pc = true.
Proof.
  induction l as [|x l IH]; simpl; [lia|].
  destruct (f x) eqn:E.
  - intros _. exists 0, x. auto.
  - intros H. destruct (IH H) as (i & pc & Hi & Hf). exists (S i), pc. auto.
Qed.

Lemma countPc_zero f (l : list workerPC) j pc :
  countPc f l = 0 -> l !! j = Some pc -> f pc = false.
Proof.
  intros H Hj. destruct (f pc) eqn:E; [|reflexivity].
  pose proof (countPc_pos f l j pc Hj E). lia.
Qed.

Section Progress.

Hypothesis cap_pos : 1 <= cap.
Variable outcome : nat -> option error.

(** No deadlock: while the channel is open some goroutine can run, the
    receiver taking what is sent and [BuildImage] returning. *)
Lemma progress s :
  Inv cap svcs s -> closedChan s = false ->
  exists a s',
    step cap svcs s a = Some s' /\
    workLeft cap svcs s' < workLeft cap svcs s /\
    returnsFollow outcome [a].
Proof.
  intros I Hopen.
  pose proof (inv_panic _ _ _ I) as Hpan.
  pose proof (inv_main _ _ _ I) as Im.
  pose proof (inv_permits _ _ _ I) as Ip.
  pose proof (inv_wg _ _ _ I) as Iw.
  pose proof (inv_closed _ _ _ I) as Icl.
  assert (Hfollow : forall a, (forall i err, a <> aReturn i err) -> returnsFollow outcome [a]).
  { intros a Ha. constructor; [|constructor]. destruct a; auto. now destruct (Ha i err). }
  unfold workLeft, step. rewrite Hpan.
  destruct (mainPc s) as [k|] eqn:Hm.
  - (* BuildServices is still in its loop *)
    exists aMain. unfold mainStep. rewrite Hm.
    destruct (svcs !! k) as [svc|] eqn:Hsvc.
    + assert (Hlt : k < length (workerPcs s)).
      { rewrite (inv_length _ _ _ I). eapply lookup_lt_Some; eauto. }
      destruct (lookup_lt_is_Some_2 _ _ Hlt) as [old Hk].
      assert (old = wNotStarted) as ->.
      { pose proof (inv_spawn _ _ _ I _ _ Hk) as Hs. rewrite Hm in Hs. apply Hs. lia. }
      eexists; split; [reflexivity|]. split; [|apply Hfollow; discriminate].
      simpl. pose proof (sumRank_insert _ k _ wAcquire Hk) as R. simpl in R.
      rewrite (inv_length _ _ _ I) in Hlt. lia.
    + eexists; split; [reflexivity|]. split; [|apply Hfollow; discriminate].
      simpl. rewrite Im. simpl. lia.
  - (* all goroutines are launched *)
    assert (Hstarted : forall j pc, workerPcs s !! j = Some pc -> pc <> wNotStarted).
    { intros j pc Hj. pose proof (inv_spawn _ _ _ I _ _ Hj) as Hs. now rewrite Hm in Hs. }
    destruct (Nat.eq_dec (countPc canMove (workerPcs s)) 0) as [Hnone|Hsome].
    + destruct (Nat.eq_dec (countPc isAcquiring (workerPcs s)) 0) as [Hnoacq|Hacq].
      * (* every goroutine has exited: the closing goroutine runs *)
        assert (Hex : forall j pc, workerPcs s !! j = Some pc -> pc = wExited).
        { intros j pc Hj.
          pose proof (countPc_zero _ _ _ _ Hnone Hj) as H1.
          pose proof (countPc_zero _ _ _ _ Hnoacq Hj) as H2.
          pose proof (Hstarted _ _ Hj) as H3.
          destruct pc; simpl in *; congruence. }
        rewrite (countPc_all_exited holdsPermit _ Hex eq_refl) in Ip.
        rewrite (countPc_all_exited inWaitGroup _ Hex eq_refl) in Iw.
        exists aCloser. unfold closerStep.
        destruct (closerPc s) as [| |i|] eqn:Hc; simpl in *; try congruence.
        -- rewrite Iw. simpl. eexists; split; [reflexivity|].
           split; [simpl; rewrite ?Hm; simpl; lia|apply Hfollow; discriminate].
        -- pose proof (inv_drain _ _ _ I i Hc) as Hi.
           destruct (Nat.ltb_spec i cap) as [Hlt|Hge].
           ++ destruct (Nat.ltb_spec (permits s) cap) as [_|Hge]; [|lia].
              eexists; split; [reflexivity|].
              split; [simpl; rewrite ?Hm; simpl; lia|apply Hfollow; discriminate].
           ++ eexists; split; [reflexivity|].
              split; [simpl; rewrite ?Hm; simpl; lia|apply Hfollow; discriminate].
      * (* the goroutines left all wait for a permit, and there is one *)
        destruct (countPc_exists isAcquiring (workerPcs s)) as (i & pc & Hi & Hpc); [lia|].
        destruct pc; try discriminate.
        destruct (active_worker_blocks_close s i _ I Hi) as [Hpast _]; [discriminate|].
        assert (Hholders : countPc holdsPermit (workerPcs s) = 0).
        { pose proof (countPc_implies holdsPermit canMove (workerPcs s)) as Hle.
          assert (countPc holdsPermit (workerPcs s) <= countPc canMove (workerPcs s)).
          { apply Hle. now intros []. }
          lia. }
        assert (Hsvc : exists svc, svcs !! i = Some svc).
        { apply lookup_lt_is_Some_2. rewrite <- (inv_length _ _ _ I).
          eapply lookup_lt_Some; eauto. }
        destruct Hsvc as [svc Hsvc].
        exists (aWorker i). unfold workerStep. rewrite Hsvc, Hi.
        assert (Hp : permits s = 0).
        { destruct (closerPc s); simpl in *; try discriminate; lia. }
        destruct (Nat.ltb_spec (permits s) cap) as [_|Hge]; [|lia].
        eexists; split; [reflexivity|]. split; [|apply Hfollow; discriminate].
        simpl. pose proof (sumRank_insert _ i _ wBuilding Hi) as R. simpl in R. rewrite ?Hm. simpl. lia.
    + (* a goroutine holds a permit or is about to leave: it runs *)
      destruct (countPc_exists canMove (workerPcs s)) as (i & pc & Hi & Hpc); [lia|].
      assert (Hsvc : exists svc, svcs !! i = Some svc).
      { apply lookup_lt_is_Some_2. rewrite <- (inv_length _ _ _ I).
        eapply lookup_lt_Some; eauto. }
      destruct Hsvc as [svc Hsvc].
      destruct pc as [| | |err| | |]; try discriminate.
      * exists (aReturn i (outcome i)). unfold returnStep. rewrite Hi.
        eexists; split; [reflexivity|]. split.
        -- simpl. pose proof (sumRank_insert _ i _ (wSend (outcome i)) Hi) as R.
           simpl in R. rewrite ?Hm. simpl. lia.
        -- constructor; [reflexivity|constructor].
      * exists (aWorker i). unfold workerStep. rewrite Hsvc, Hi.
        eexists; split; [reflexivity|]. split; [|apply Hfollow; discriminate].
        unfold sendUpdate. rewrite Hopen. simpl.
        pose proof (sumRank_insert _ i _ wRelease Hi) as R. simpl in R. rewrite ?Hm. simpl. lia.
      * exists (aWorker i). unfold workerStep. rewrite Hsvc, Hi.
        pose proof (countPc_pos holdsPermit _ _ _ Hi eq_refl) as Hpos.
        destruct (permits s) as [|n] eqn:Hp; [lia|].
        eexists; split; [reflexivity|]. split; [|apply Hfollow; discriminate].
        simpl. pose proof (sumRank_insert _ i _ wDone Hi) as R. simpl in R. rewrite ?Hm. simpl. lia.
      * exists (aWorker i). unfold workerStep. rewrite Hsvc, Hi.
        pose proof (countPc_pos inWaitGroup _ _ _ Hi eq_refl) as Hpos.
        destruct (wgCounter s) as [|n] eqn:Hw; [lia|].
        eexists; split; [reflexivity|]. split; [|apply Hfollow; discriminate].
        simpl. pose proof (sumRank_insert _ i _ wExited Hi) as R. simpl in R. rewrite ?Hm. simpl. lia.
Qed.

Lemma can_close_bounded m : forall s,
  Inv cap svcs s -> workLeft cap svcs s <= m ->
  exists acts s',
    exec cap svcs s acts = Some s' /\ closedChan s' = true /\
    returnsFollow outcome acts.
Proof.
  induction m as [|m IH]; intros s I Hm;
    (destruct (closedChan s) eqn:Hcl;
     [exists [], s; repeat split; [assumption|constructor]|]);
    destruct (progress s I Hcl) as (a & s1 & Hstep & Hless & Hf); [lia|].
  destruct (IH s1) as (acts & s' & He & Hc & Hfs).
  - eapply Inv_step; eauto.
  - lia.
  - exists (a :: acts), s'. repeat split; [simpl; now rewrite Hstep|assumption|].
    constructor; [now inversion Hf|assumption].
Qed.

(** From every reachable state the run can be continued until the channel
    is closed. *)
Lemma can_close s :
  reachable cap svcs s ->
  exists acts s',
    exec cap svcs s acts = Some s' /\ closedChan s' = true /\
    returnsFollow outcome acts.
Proof.
  intros R. eapply can_close_bounded; [now apply Inv_reachable|reflexivity].
Qed.

End Progress.

End BuildInvariant.

Lemma buildsTo_reachable cap p s :
  buildsTo cap p s -> services p <> [] /\ reachable cap (services p) s.
Proof.
  intros (s0 & acts & Hb & He). unfold BuildServices in Hb.
  destruct (services p) as [|svc l] eqn:Hs; simpl in Hb; [discriminate|].
  injection Hb as <-. split; [discriminate|]. now exists acts.
Qed.

Lemma buildsTo_Inv cap p s : buildsTo cap p s -> Inv cap (services p) s.
Proof. intros H. apply Inv_reachable, (buildsTo_reachable _ _ _ H). Qed.

Lemma workerPcs_sendUpdate s i u : workerPcs (sendUpdate s i u) = workerPcs s.
Proof. unfold sendUpdate. now destruct (closedChan s). Qed.

Lemma permits_sendUpdate s i u : permits (sendUpdate s i u) = permits s.
Proof. unfold sendUpdate. now destruct (closedChan s). Qed.

(** The only statement that takes a goroutine into [BuildImage] is the send
    of a token to [maxConcurrentBuilds], which needs room in the buffer. *)
Lemma enters_building_by_acquire cap svcs s a s' i :
  step cap svcs s a = Some s' ->
  workerPcs s' !! i = Some wBuilding ->
  workerPcs s !! i = Some wBuilding \/
  (a = aWorker i /\ workerPcs s !! i = Some wAcquire /\
   permits s < cap /\ permits s' = S (permits s)).
Proof.
  unfold step. destruct (panicked s); [discriminate|].
  destruct a as [|k|k msg|k err|]; intros H Hi.
  - unfold mainStep in H. destruct (mainPc s) as [j|]; [|discriminate].
    destruct (svcs !! j); injection H as <-; simpl in Hi; [|now left].
    apply list_lookup_insert_Some in Hi as [(_ & [=] & _)|(_ & Hi)]. now left.
  - unfold workerStep in H.
    destruct (svcs !! k) as [svc|]; [|discriminate].
    destruct (workerPcs s !! k) as [pc|] eqn:Hk; [|discriminate].
    destruct pc as [| | |err| | |]; try discriminate.
    + destruct (Nat.ltb_spec (permits s) cap) as [Hlt|]; [|discriminate].
      injection H as <-. simpl in *.
      apply list_lookup_insert_Some in Hi as [(-> & _ & _)|(_ & Hi)]; [right|left]; auto.
    + injection H as <-. simpl in Hi. rewrite workerPcs_sendUpdate in Hi.
      apply list_lookup_insert_Some in Hi as [(_ & [=] & _)|(_ & Hi)]. now left.
    + destruct (permits s); [discriminate|]. injection H as <-. simpl in Hi.
      apply list_lookup_insert_Some in Hi as [(_ & [=] & _)|(_ & Hi)]. now left.
    + destruct (wgCounter s); injection H as <-; simpl in Hi; [now left|].
      apply list_lookup_insert_Some in Hi as [(_ & [=] & _)|(_ & Hi)]. now left.
  - unfold writeStep in H.
    destruct (svcs !! k) as [svc|]; [|discriminate].
    destruct (workerPcs s !! k) as [pc|] eqn:Hk; [|discriminate].
    destruct pc; try discriminate. injection H as <-.
    rewrite workerPcs_sendUpdate in Hi. now left.
  - unfold returnStep in H.
    destruct (workerPcs s !! k) as [pc|] eqn:Hk; [|discriminate].
    destruct pc; try discriminate. injection H as <-. simpl in Hi.
    apply list_lookup_insert_Some in Hi as [(_ & [=] & _)|(_ & Hi)]. now left.
  - unfold closerStep in H. destruct (closerPc s) as [| |j|]; try discriminate.
    + destruct (Nat.eqb (wgCounter s) 0); [|discriminate]. injection H as <-. now left.
    + destruct (Nat.ltb j cap).
      * destruct (Nat.ltb (permits s) cap); [|discriminate]. injection H as <-. now left.
      * injection H as <-. now left.
Qed.

(** Every Error update on the stream is the terminal update of a build that
    returned an error, and carries that error. *)
Lemma error_update_has_error cap svcs s j u :
  Inv cap svcs s -> In (j, u) (sent s) -> Status u = ServiceBuildStatus_Error ->
  exists svc err, svcs !! j = Some svc /\ u = finalUpdate svc (Some err).
Proof.
  intros I Hin Hst.
  pose proof (inv_names _ _ _ I) as Hn. rewrite List.Forall_forall in Hn.
  destruct (Hn _ Hin) as (svc & Hsvc & _). simpl in Hsvc.
  assert (Hlt : j < length (workerPcs s)).
  { rewrite (inv_length _ _ _ I). eapply lookup_lt_Some; eauto. }
  destruct (lookup_lt_is_Some_2 _ _ Hlt) as [pc Hj].
  pose proof (inv_finals _ _ _ I _ _ _ Hj Hsvc) as Hf.
  assert (Hu : In u (finalsOf j (sent s))).
  { unfold finalsOf. apply in_map_iff. exists (j, u). split; [reflexivity|].
    apply filter_In. split; [assumption|]. simpl.
    unfold terminal. rewrite Hst, Nat.eqb_refl. reflexivity. }
  unfold finalsOk in Hf. destruct (hasSentFinal pc).
  - destruct Hf as [err Hf]. rewrite Hf in Hu. destruct Hu as [<-|[]].
    destruct err as [e|]; [|discriminate]. eauto.
  - rewrite Hf in Hu. destruct Hu.
Qed.

(** The results a run has returned, followed through the steps. *)
Lemma returnsOf_snoc i acts a :
  returnsOf i (acts ++ [a])
  = (returnsOf i acts
     ++ match a with
        | aReturn k err => if Nat.eqb k i then [err] else []
        | _ => []
        end)%list.
Proof.
  unfold returnsOf. rewrite omap_app. f_equal.
  destruct a as [|k|k msg|k err|]; simpl; try reflexivity.
  now destruct (Nat.eqb k i).
Qed.

Lemma In_returnsOf i err acts : In (aReturn i err) acts <-> In err (returnsOf i acts).
Proof.
  unfold returnsOf. rewrite <- !list_elem_of_In, list_elem_of_omap. split.
  - intros H. exists (aReturn i err). split; [exact H|]. now rewrite Nat.eqb_refl.
  - intros (a & Ha & Hf). destruct a as [|k|k msg|k e|]; try discriminate.
    destruct (Nat.eqb_spec k i) as [->|]; [|discriminate]. now injection Hf as ->.
Qed.

Lemma returnsFollow_returnsOf outcome acts i err :
  returnsFollow outcome acts -> In err (returnsOf i acts) -> err = outcome i.
Proof.
  intros HF Hin. apply In_returnsOf in Hin.
  unfold returnsFollow in HF. rewrite List.Forall_forall in HF.
  exact (HF _ Hin).
Qed.

Lemma RunInv_same svcs acts a s s' :
  RunInv svcs acts s -> workerPcs s' = workerPcs s ->
  (forall i, returnsOf i (acts ++ [a]) = returnsOf i acts /\
             finalsOf i (sent s') = finalsOf i (sent s)) ->
  RunInv svcs (acts ++ [a]) s'.
Proof.
  intros R Hpcs Hsame i pc svc Hi Hsvc. rewrite Hpcs in Hi.
  destruct (Hsame i) as [-> ->]. now apply R.
Qed.

Lemma RunInv_move svcs acts a s s' k old new :
  RunInv svcs acts s ->
  workerPcs s !! k = Some old -> workerPcs s' = <[k := new]> (workerPcs s) ->
  (forall i, i <> k ->
     returnsOf i (acts ++ [a]) = returnsOf i acts /\
     finalsOf i (sent s') = finalsOf i (sent s)) ->
  (forall svc, svcs !! k = Some svc ->
     runOk svc old (returnsOf k acts) (finalsOf k (sent s)) ->
     runOk svc new (returnsOf k (acts ++ [a])) (finalsOf k (sent s'))) ->
  RunInv svcs (acts ++ [a]) s'.
Proof.
  intros R Hk Hpcs Hother Hself i pc svc Hi Hsvc. rewrite Hpcs in Hi.
  apply list_lookup_insert_Some in Hi as [(-> & <- & _)|(Hne & Hi)].
  - apply Hself; [exact Hsvc|]. now apply R.
  - destruct (Hother i) as [-> ->]; [congruence|]. now apply R.
Qed.

Lemma RunInv_step cap svcs acts s a s' :
  Inv cap svcs s -> RunInv svcs acts s -> step cap svcs s a = Some s' ->
  RunInv svcs (acts ++ [a]) s'.
Proof.
  intros I R H. unfold step in H. rewrite (inv_panic _ _ _ I) in H.
  destruct a as [|k|k msg|k err|].
  - (* the loop of BuildServices *)
    unfold mainStep in H. destruct (mainPc s) as [j|] eqn:Hm; [|discriminate].
    destruct (svcs !! j) as [svc|] eqn:Hsvc; injection H as <-.
    + assert (Hlt : j < length (workerPcs s)).
      { rewrite (inv_length _ _ _ I). eapply lookup_lt_Some; eauto. }
      destruct (lookup_lt_is_Some_2 _ _ Hlt) as [old Hj].
      assert (old = wNotStarted) as ->.
      { pose proof (inv_spawn _ _ _ I _ _ Hj) as Hs. rewrite Hm in Hs. apply Hs. lia. }
      eapply (RunInv_move svcs acts aMain s _ j wNotStarted wAcquire); eauto.
      * intros i _. rewrite returnsOf_snoc, app_nil_r. auto.
      * intros svc' _ Hold. simpl in *. now rewrite returnsOf_snoc, app_nil_r.
    + eapply RunInv_same; eauto.
      intros i. rewrite returnsOf_snoc, app_nil_r. auto.
  - (* a statement of a build goroutine *)
    unfold workerStep in H.
    destruct (svcs !! k) as [svc|] eqn:Hsvc; [|discriminate].
    destruct (workerPcs s !! k) as [pc|] eqn:Hk; [|discriminate].
    destruct pc as [| | |err| | |]; try discriminate.
    + destruct (Nat.ltb (permits s) cap); [|discriminate]. injection H as <-.
      eapply (RunInv_move svcs acts _ s _ k wAcquire wBuilding); eauto.
      * intros i _. rewrite returnsOf_snoc, app_nil_r. auto.
      * intros svc' _ Hold. simpl in *. now rewrite returnsOf_snoc, app_nil_r.
    + injection H as <-.
      destruct (active_worker_blocks_close cap svcs s k _ I Hk) as [_ Hopen];
        [discriminate|].
      eapply (RunInv_move svcs acts _ s _ k (wSend err) wRelease); eauto.
      * simpl. now rewrite workerPcs_sendUpdate.
      * intros i Hne. rewrite returnsOf_snoc, app_nil_r. split; [reflexivity|].
        simpl. unfold sendUpdate. rewrite Hopen. simpl. rewrite finalsOf_app.
        apply not_eq_sym, Nat.eqb_neq in Hne. rewrite Hne. simpl. apply app_nil_r.
      * intros svc' Hsvc' Hold. rewrite Hsvc in Hsvc'. injection Hsvc' as <-.
        simpl in *. rewrite returnsOf_snoc, app_nil_r.
        exists err. split; [exact Hold|].
        unfold sendUpdate. rewrite Hopen. simpl.
        rewrite finalsOf_app, Nat.eqb_refl, terminal_finalUpdate. simpl.
        pose proof (inv_finals _ _ _ I _ _ _ Hk Hsvc) as Hf. unfold finalsOk in Hf.
        simpl in Hf. now rewrite Hf.
    + destruct (permits s); [discriminate|]. injection H as <-.
      eapply (RunInv_move svcs acts _ s _ k wRelease wDone); eauto.
      * intros i _. rewrite returnsOf_snoc, app_nil_r. auto.
      * intros svc' _ Hold. simpl in *. now rewrite returnsOf_snoc, app_nil_r.
    + pose proof (countPc_pos inWaitGroup _ _ _ Hk eq_refl) as Hpos.
      rewrite <- (inv_wg _ _ _ I) in Hpos.
      destruct (wgCounter s); [lia|]. injection H as <-.
      eapply (RunInv_move svcs acts _ s _ k wDone wExited); eauto.
      * intros i _. rewrite returnsOf_snoc, app_nil_r. auto.
      * intros svc' _ Hold. simpl in *. now rewrite returnsOf_snoc, app_nil_r.
  - (* BuildImage writes *)
    unfold writeStep in H.
    destruct (svcs !! k) as [svc|] eqn:Hsvc; [|discriminate].
    destruct (workerPcs s !! k) as [pc|] eqn:Hk; [|discriminate].
    destruct pc; try discriminate. injection H as <-.
    destruct (active_worker_blocks_close cap svcs s k _ I Hk) as [_ Hopen];
      [discriminate|].
    eapply RunInv_same; eauto; [apply workerPcs_sendUpdate|].
    intros i. rewrite returnsOf_snoc, app_nil_r. split; [reflexivity|].
    unfold sendUpdate. rewrite Hopen. simpl. rewrite finalsOf_app. simpl.
    rewrite andb_false_r. apply app_nil_r.
  - (* BuildImage returns *)
    unfold returnStep in H.
    destruct (workerPcs s !! k) as [pc|] eqn:Hk; [|discriminate].
    destruct pc; try discriminate. injection H as <-.
    eapply (RunInv_move svcs acts _ s _ k wBuilding (wSend err)); eauto.
    + intros i Hne. rewrite returnsOf_snoc. apply not_eq_sym, Nat.eqb_neq in Hne.
      rewrite Hne, app_nil_r. auto.
    + intros svc' _ Hold. simpl in *. rewrite returnsOf_snoc, Nat.eqb_refl, Hold.
      reflexivity.
  - (* the closing goroutine *)
    unfold closerStep in H.
    assert (Hsame : forall s1, workerPcs s1 = workerPcs s -> sent s1 = sent s ->
                      RunInv svcs (acts ++ [aCloser]) s1).
    { intros s1 Hp Hs. eapply RunInv_same; eauto.
      intros i. rewrite returnsOf_snoc, app_nil_r, Hs. auto. }
    destruct (closerPc s) as [| |j|]; try discriminate.
    + destruct (Nat.eqb (wgCounter s) 0); [|discriminate]. injection H as <-.
      now apply Hsame.
    + destruct (Nat.ltb j cap).
      * destruct (Nat.ltb (permits s) cap); [|discriminate]. injection H as <-.
        now apply Hsame.
      * injection H as <-. now apply Hsame.
Qed.

Lemma RunInv_exec cap svcs acts : forall pre s s',
  Inv cap svcs s -> RunInv svcs pre s -> exec cap svcs s acts = Some s' ->
  RunInv svcs (pre ++ acts) s'.
Proof.
  induction acts as [|a acts IH]; intros pre s s' I R H; simpl in H.
  - injection H as <-. now rewrite app_nil_r.
  - destruct (step cap svcs s a) as [s1|] eqn:Hs; [|discriminate].
    replace (pre ++ a :: acts)%list with ((pre ++ [a]) ++ acts)%list
      by now rewrite <- app_assoc.
    eapply IH; [| |exact H].
    + eapply Inv_step; eauto.
    + eapply RunInv_step; eauto.
Qed.

(** In a run from the start, the stream reports what the builds returned. *)
Lemma RunInv_run cap svcs acts s :
  exec cap svcs (initBuild svcs) acts = Some s -> RunInv svcs acts s.
Proof.
  intros H. change acts with ([] ++ acts)%list.
  eapply RunInv_exec; [apply Inv_init| |exact H].
  intros i pc svc Hi _. simpl in Hi. apply lookup_replicate in Hi as [-> _].
  reflexivity.
Qed.

Lemma finalsOf_In i u l : In u (finalsOf i l) -> terminal u = true /\ In (i, u) l.
Proof.
  unfold finalsOf. intros H. apply in_map_iff in H as ([j v] & <- & Hin).
  apply filter_In in Hin as [Hin Hf]. simpl in Hf.
  apply andb_prop in Hf as [Hj Ht]. apply Nat.eqb_eq in Hj. subst j. auto.
Qed.

(** Whatever the builds are to return, there is a run of them all to the
    close of the stream, and its stream reports those results. *)
Lemma complete_run cap svcs outcome :
  1 <= cap ->
  exists acts s,
    exec cap svcs (initBuild svcs) acts = Some s /\
    closedChan s = true /\
    forall i svc, svcs !! i = Some svc ->
      In (aReturn i (outcome i)) acts /\
      finalsOf i (sent s) = [finalUpdate svc (outcome i)].
Proof.
  intros Hcap.
  destruct (can_close cap svcs Hcap outcome (initBuild svcs)) as (acts & s & He & Hcl & HF).
  { exists []. reflexivity. }
  exists acts, s. split; [exact He|]. split; [exact Hcl|].
  intros i svc Hsvc.
  assert (I : Inv cap svcs s) by (apply Inv_reachable; now exists acts).
  assert (Hlt : i < length (workerPcs s)).
  { rewrite (inv_length _ _ _ I). eapply lookup_lt_Some; eauto. }
  destruct (lookup_lt_is_Some_2 _ _ Hlt) as [pc Hi].
  assert (pc = wExited) as ->.
  { apply (inv_closer _ _ _ I) with (j := i); [|exact Hi].
    pose proof (inv_closed _ _ _ I) as Icl. rewrite Hcl in Icl.
    destruct (closerPc s); [discriminate..|reflexivity]. }
  destruct (RunInv_run cap svcs acts s He i _ svc Hi Hsvc) as (err & Hrs & Hfs).
  assert (err = outcome i) as ->.
  { apply (returnsFollow_returnsOf outcome acts i); [exact HF|].
    rewrite Hrs. now left. }
  split; [|exact Hfs]. apply In_returnsOf. rewrite Hrs. now left.
Qed.

(** C7. [BuildServices] returns an error, and no channel, exactly when the
    project has no services; otherwise it returns the channel and no error,
    whatever the builds will do. A build that fails is reported on the
    stream: in every run of the goroutines, once the [BuildImage] of a
    service has returned an error, its goroutine is about to send, or has
    sent as its one terminal update, the update of status Error for that
    service with the error attached, and it has sent it when the stream is
    closed. Such runs exist: whatever results the builds are to return,
    errors or not, there is a run in which they return them and the stream
    is closed after reporting each. And every Error update on the stream is
    the report of a build that failed. *)
Theorem BuildServices_fails_only_without_services (p : Project) :
  (services p = [] <-> exists err, BuildServices p = (None, Some err)) /\
  (services p <> [] <-> BuildServices p = (Some (initBuild (services p)), None)) /\
  (forall cap acts s i svc err,
     exec cap (services p) (initBuild (services p)) acts = Some s ->
     services p !! i = Some svc ->
     In (aReturn i (Some err)) acts ->
     panicked s = false /\
     (workerPcs s !! i = Some (wSend (Some err)) \/
      finalsOf i (sent s) = [errorUpdate svc err]) /\
     (closedChan s = true -> In (i, errorUpdate svc err) (sent s))) /\
  (forall cap outcome, 1 <= cap ->
     exists acts s,
       exec cap (services p) (initBuild (services p)) acts = Some s /\
       closedChan s = true /\
       forall i svc, services p !! i = Some svc ->
         In (aReturn i (outcome i)) acts /\
         finalsOf i (sent s) = [finalUpdate svc (outcome i)]) /\
  (forall cap acts s j u,
     exec cap (services p) (initBuild (services p)) acts = Some s ->
     In (j, u) (sent s) -> Status u = ServiceBuildStatus_Error ->
     exists svc err,
       services p !! j = Some svc /\ u = errorUpdate svc err /\
       In (aReturn j (Some err)) acts).
Proof.
  split; [|split; [|split; [|split]]].
  - unfold BuildServices. split.
    + intros E. rewrite E. simpl. eauto.
    + intros [err H]. destruct (services p); [reflexivity|discriminate].
  - unfold BuildServices. split.
    + intros Hne. destruct (services p); [congruence|reflexivity].
    + intros H E. rewrite E in H. discriminate.
  - intros cap acts s i svc err He Hsvc Hin.
    assert (I : Inv cap (services p) s) by (apply Inv_reachable; now exists acts).
    assert (Hlt : i < length (workerPcs s)).
    { rewrite (inv_length _ _ _ I). eapply lookup_lt_Some; eauto. }
    destruct (lookup_lt_is_Some_2 _ _ Hlt) as [pc Hi].
    pose proof (RunInv_run cap _ acts s He i pc svc Hi Hsvc) as R.
    apply In_returnsOf in Hin.
    assert (Hcase : pc = wSend (Some err) \/
                    (hasSentFinal pc = true /\
                     finalsOf i (sent s) = [errorUpdate svc err])).
    { destruct pc as [| | |e| | |]; simpl in R;
        try (rewrite R in Hin; destruct Hin; fail);
        try (rewrite R in Hin; destruct Hin as [->|[]]; now left);
        destruct R as (e & Hrs & Hfs); rewrite Hrs in Hin;
        destruct Hin as [->|[]]; right; auto. }
    split; [apply I|]. split.
    + destruct Hcase as [->|[_ Hf]]; auto.
    + intros Hcl.
      assert (pc = wExited) as ->.
      { apply (inv_closer _ _ _ I) with (j := i); [|exact Hi].
        pose proof (inv_closed _ _ _ I) as Icl. rewrite Hcl in Icl.
        destruct (closerPc s); [discriminate..|reflexivity]. }
      destruct Hcase as [Hc|[_ Hf]]; [discriminate|].
      apply (finalsOf_In i). rewrite Hf. now left.
  - intros cap outcome Hcap. now apply complete_run.
  - intros cap acts s j u He Hin Hst.
    assert (I : Inv cap (services p) s) by (apply Inv_reachable; now exists acts).
    destruct (error_update_has_error cap (services p) s j u I Hin Hst)
      as (svc & err & Hsvc & ->).
    exists svc, err. split; [exact Hsvc|]. split; [reflexivity|].
    assert (Hlt : j < length (workerPcs s)).
    { rewrite (inv_length _ _ _ I). eapply lookup_lt_Some; eauto. }
    destruct (lookup_lt_is_Some_2 _ _ Hlt) as [pc Hj].
    pose proof (RunInv_run cap _ acts s He j pc svc Hj Hsvc) as R.
    pose proof (inv_finals _ _ _ I _ _ _ Hj Hsvc) as Hf. unfold finalsOk in Hf.
    assert (Hu : In (finalUpdate svc (Some err)) (finalsOf j (sent s))).
    { unfold finalsOf. apply in_map_iff. exists (j, finalUpdate svc (Some err)).
      split; [reflexivity|]. apply filter_In. split; [assumption|]. simpl.
      now rewrite Nat.eqb_refl. }
    apply In_returnsOf.
    destruct pc as [| | |e| | |]; simpl in R, Hf;
      try (rewrite Hf in Hu; destruct Hu; fail);
      destruct R as (e & Hrs & Hfs); rewrite Hfs in Hu;
      destruct Hu as [Hu|[]]; rewrite Hrs;
      destruct e as [e|]; [injection Hu as ->; now left|discriminate
                          |injection Hu as ->; now left|discriminate
                          |injection Hu as ->; now left|discriminate].
Qed.

Lemma BuildServices_fails_only_without_services_witness :
  exists s,
    exec 2 (services sampleProject) (initBuild (services sampleProject)) sampleRun = Some s /\
    closedChan s = true /\
    In (1, {| ServiceName := "shop_services-b"; Err := Some (errorString "exit status 1");
              Message := "exit status 1"; Status := ServiceBuildStatus_Error |})
       (sent s).
Proof.
  eexists. split; [vm_compute; reflexivity|]. split; [reflexivity|].
  match goal with |- In _ (sent ?s) =>
    destruct (BuildServices_fails_only_without_services sampleProject)
      as (_ & _ & Hreport & _);
    destruct (Hreport 2 sampleRun s 1 (sampleService "b") (errorString "exit status 1"))
      as (_ & _ & Hclosed)
  end.
  - vm_compute. reflexivity.
  - reflexivity.
  - unfold sampleRun, sampleBusy. simpl. auto 20.
  - exact (Hclosed eq_refl).
Defined.

(** C8. In every state the goroutines of [BuildServices] reach, no goroutine
    has panicked (no send met a closed channel) and every service has at most
    one terminal update on the stream. Once the stream is closed every
    service has exactly one, every build goroutine has finished, no permit is
    held and nothing runs any more. And with a permit pool of at least one,
    the run can always be continued until the stream is closed, whatever the
    builds return. *)
Theorem update_stream_one_terminal_update_each (cap : nat) (p : Project) (s : BuildState) :
  buildsTo cap p s ->
  panicked s = false /\
  (forall i svc, services p !! i = Some svc ->
     finalsOf i (sent s) = [] \/ exists err, finalsOf i (sent s) = [finalUpdate svc err]) /\
  (closedChan s = true ->
     (forall i svc, services p !! i = Some svc ->
        exists err, finalsOf i (sent s) = [finalUpdate svc err]) /\
     terminalCount (sent s) = length (services p) /\
     (forall j pc, workerPcs s !! j = Some pc -> pc = wExited) /\
     countPc holdsPermit (workerPcs s) = 0 /\
     wgCounter s = 0 /\
     forall a, step cap (services p) s a = None) /\
  (1 <= cap -> forall outcome,
     exists acts s',
       exec cap (services p) s acts = Some s' /\ closedChan s' = true /\
       returnsFollow outcome acts).
Proof.
  intros B. pose proof (buildsTo_Inv _ _ _ B) as I.
  assert (Hpc : forall i svc, services p !! i = Some svc ->
                  exists pc, workerPcs s !! i = Some pc).
  { intros i svc Hsvc. apply lookup_lt_is_Some_2. rewrite (inv_length _ _ _ I).
    eapply lookup_lt_Some; eauto. }
  split; [apply I|]. split; [|split].
  - intros i svc Hsvc. destruct (Hpc i svc Hsvc) as [pc Hi].
    pose proof (inv_finals _ _ _ I _ _ _ Hi Hsvc) as Hf. unfold finalsOk in Hf.
    destruct (hasSentFinal pc); auto.
  - intros Hcl.
    assert (Hex : forall j pc, workerPcs s !! j = Some pc -> pc = wExited).
    { apply (inv_closer _ _ _ I). pose proof (inv_closed _ _ _ I) as Icl.
      rewrite Hcl in Icl. destruct (closerPc s); [discriminate..|reflexivity]. }
    repeat split.
    + intros i svc Hsvc. destruct (Hpc i svc Hsvc) as [pc Hi].
      pose proof (inv_finals _ _ _ I _ _ _ Hi Hsvc) as Hf.
      rewrite (Hex _ _ Hi) in Hf. exact Hf.
    + rewrite (inv_total _ _ _ I), <- (inv_length _ _ _ I).
      apply countPc_all. intros j pc Hj. now rewrite (Hex _ _ Hj).
    + exact Hex.
    + now apply countPc_all_exited.
    + rewrite (inv_wg _ _ _ I). now apply countPc_all_exited.
    + intros a. eapply closed_is_final; eauto.
  - intros Hcap outcome. apply can_close; [assumption|].
    apply (buildsTo_reachable _ _ _ B).
Qed.

(** A goroutine waiting for a permit gets it, and enters [BuildImage], when
    the pool has room; it is blocked when the pool is full. *)
Lemma acquire_step cap svcs s i :
  Inv cap svcs s -> workerPcs s !! i = Some wAcquire ->
  (permits s < cap ->
     exists s', step cap svcs s (aWorker i) = Some s' /\
                workerPcs s' !! i = Some wBuilding /\
                permits s' = S (permits s) /\
                countPc isBuilding (workerPcs s') = S (countPc isBuilding (workerPcs s))) /\
  (cap <= permits s -> step cap svcs s (aWorker i) = None).
Proof.
  intros I Hi.
  assert (Hlt : i < length (workerPcs s)) by (eapply lookup_lt_Some; eauto).
  assert (Hsvc : exists svc, svcs !! i = Some svc).
  { apply lookup_lt_is_Some_2. now rewrite <- (inv_length _ _ _ I). }
  destruct Hsvc as [svc Hsvc].
  unfold step, workerStep. rewrite (inv_panic _ _ _ I), Hsvc, Hi. split.
  - intros Hroom. apply Nat.ltb_lt in Hroom. rewrite Hroom.
    eexists. split; [reflexivity|]. simpl. split; [|split; [reflexivity|]].
    + now apply list_lookup_insert_eq.
    + pose proof (countPc_insert isBuilding _ i _ wBuilding Hi) as C. simpl in C. lia.
  - intros Hfull. apply Nat.ltb_ge in Hfull. now rewrite Hfull.
Qed.

(** C9. In every state the goroutines of [BuildServices] reach, the builds
    in flight are at most [min(NumCPU, GOMAXPROCS)], because the pool counts
    them: the tokens in the pool are the goroutines between their acquire
    and their release, plus the tokens of the closing goroutine. A goroutine
    waiting to build takes one token and enters [BuildImage] when the pool
    has room, and cannot move when it is full; no goroutine enters
    [BuildImage] in another way. A goroutine inside [BuildImage], whatever
    that returns, error or not, sends its update and takes its token out
    again. And whatever the builds still running or still to run return,
    the run can go on until the stream is closed, with no token held by a
    build. *)
Theorem builds_in_flight_bounded (numCPU gomaxprocs : nat) (p : Project) (s : BuildState) :
  buildsTo (permitPool numCPU gomaxprocs) p s ->
  countPc isBuilding (workerPcs s) <= Nat.min numCPU gomaxprocs /\
  countPc isBuilding (workerPcs s) <= countPc holdsPermit (workerPcs s) /\
  permits s = countPc holdsPermit (workerPcs s)
              + closerTokens (Nat.min numCPU gomaxprocs) (closerPc s) /\
  permits s <= Nat.min numCPU gomaxprocs /\
  (forall i, workerPcs s !! i = Some wAcquire ->
     (permits s < Nat.min numCPU gomaxprocs ->
        exists s',
          step (permitPool numCPU gomaxprocs) (services p) s (aWorker i) = Some s' /\
          workerPcs s' !! i = Some wBuilding /\
          permits s' = S (permits s) /\
          countPc isBuilding (workerPcs s') = S (countPc isBuilding (workerPcs s))) /\
     (Nat.min numCPU gomaxprocs <= permits s ->
        step (permitPool numCPU gomaxprocs) (services p) s (aWorker i) = None)) /\
  (forall a s' i,
     step (permitPool numCPU gomaxprocs) (services p) s a = Some s' ->
     workerPcs s' !! i = Some wBuilding ->
     workerPcs s !! i = Some wBuilding \/
     (a = aWorker i /\ workerPcs s !! i = Some wAcquire /\
      permits s < Nat.min numCPU gomaxprocs /\ permits s' = S (permits s))) /\
  (forall i err,
     workerPcs s !! i = Some wBuilding ->
     exists s1 s2 s3,
       step (permitPool numCPU gomaxprocs) (services p) s (aReturn i err) = Some s1 /\
       step (permitPool numCPU gomaxprocs) (services p) s1 (aWorker i) = Some s2 /\
       step (permitPool numCPU gomaxprocs) (services p) s2 (aWorker i) = Some s3 /\
       workerPcs s3 !! i = Some wDone /\
       S (permits s3) = permits s) /\
  (1 <= Nat.min numCPU gomaxprocs -> forall outcome,
     exists acts s',
       exec (permitPool numCPU gomaxprocs) (services p) s acts = Some s' /\
       returnsFollow outcome acts /\
       closedChan s' = true /\
       countPc holdsPermit (workerPcs s') = 0).
Proof.
  intros B. pose proof (buildsTo_Inv _ _ _ B) as I.
  pose proof (inv_permits _ _ _ I) as Ip. pose proof (inv_cap _ _ _ I) as Ic.
  assert (Hb : countPc isBuilding (workerPcs s) <= countPc holdsPermit (workerPcs s)).
  { apply countPc_implies. now intros []. }
  unfold permitPool in *.
  split; [lia|]. split; [exact Hb|]. split; [exact Ip|]. split; [exact Ic|].
  split; [|split; [|split]].
  - intros i Hi. now apply acquire_step.
  - intros a s' i. apply enters_building_by_acquire.
  - intros i err Hi.
    assert (Hsvc : exists svc, services p !! i = Some svc).
    { apply lookup_lt_is_Some_2. rewrite <- (inv_length _ _ _ I).
      eapply lookup_lt_Some; eauto. }
    destruct Hsvc as [svc Hsvc].
    destruct (building_worker_finishes _ _ s i svc err I Hsvc Hi)
      as (s1 & s2 & s3 & H1 & H2 & H3 & _ & _ & _ & _ & Hd & Hp).
    exists s1, s2, s3. auto.
  - intros Hcap outcome.
    destruct (can_close _ (services p) Hcap outcome s) as (acts & s' & He & Hcl & HF).
    { apply (buildsTo_reachable _ _ _ B). }
    exists acts, s'. split; [exact He|]. split; [exact HF|]. split; [exact Hcl|].
    assert (I' : Inv (Nat.min numCPU gomaxprocs) (services p) s').
    { eapply Inv_exec; eauto. }
    apply countPc_all_exited; [|reflexivity].
    apply (inv_closer _ _ _ I'). pose proof (inv_closed _ _ _ I') as Icl.
    rewrite Hcl in Icl. destruct (closerPc s'); [discriminate..|reflexivity].
Qed.

(** The model at work on the sample project. With both permits taken the
    third goroutine is blocked. *)
Example sample_third_build_waits :
  exists s, exec 2 (services sampleProject) (initBuild (services sampleProject)) sampleBusy = Some s /\
            countPc isBuilding (workerPcs s) = 2 /\
            step 2 (services sampleProject) s (aWorker 2) = None.
Proof. eexists. split; [vm_compute; reflexivity|]. split; reflexivity. Qed.

Example sample_run_stream :
  exists s, exec 2 (services sampleProject) (initBuild (services sampleProject)) sampleRun = Some s /\
            closedChan s = true /\
            List.map (fun x => (ServiceName (snd x), Status (snd x))) (sent s)
            = [("shop_services-a", ServiceBuildStatus_Building);
               ("shop_services-b", ServiceBuildStatus_Error);
               ("shop_services-c", ServiceBuildStatus_Complete);
               ("shop_services-a", ServiceBuildStatus_Complete)].
Proof. eexists. split; [vm_compute; reflexivity|]. split; reflexivity. Qed.

Lemma update_stream_one_terminal_update_each_witness :
  exists s,
    exec 2 (services sampleProject) (initBuild (services sampleProject)) sampleRun = Some s /\
    closedChan s = true /\
    terminalCount (sent s) = 3 /\
    panicked s = false.
Proof.
  eexists. split; [vm_compute; reflexivity|].
  match goal with |- closedChan ?s = _ /\ _ =>
    assert (B : buildsTo 2 sampleProject s)
      by (exists (initBuild (services sampleProject)), sampleRun;
          split; vm_compute; reflexivity);
    destruct (update_stream_one_terminal_update_each 2 sampleProject s B)
      as (Hpan & _ & Hclosed & _)
  end.
  split; [reflexivity|].
  destruct (Hclosed eq_refl) as (_ & Hcount & _).
  split; [exact Hcount|exact Hpan].
Defined.

Lemma builds_in_flight_bounded_witness :
  (exists s,
     exec (permitPool 8 2) (services sampleProject) (initBuild (services sampleProject))
       sampleFirst = Some s /\
     countPc isBuilding (workerPcs s) <= Nat.min 8 2 /\
     (exists s',
        step (permitPool 8 2) (services sampleProject) s (aWorker 1) = Some s' /\
        workerPcs s' !! 1 = Some wBuilding /\ permits s' = 2) /\
     (exists s1 s2 s3,
        step (permitPool 8 2) (services sampleProject) s
          (aReturn 0 (Some (errorString "exit status 1"))) = Some s1 /\
        step (permitPool 8 2) (services sampleProject) s1 (aWorker 0) = Some s2 /\
        step (permitPool 8 2) (services sampleProject) s2 (aWorker 0) = Some s3 /\
        workerPcs s3 !! 0 = Some wDone /\ permits s3 = 0)) /\
  (exists s,
     exec (permitPool 8 2) (services sampleProject) (initBuild (services sampleProject))
       sampleBusy = Some s /\
     countPc isBuilding (workerPcs s) <= Nat.min 8 2 /\
     step (permitPool 8 2) (services sampleProject) s (aWorker 2) = None).
Proof.
  split.
  - eexists. split; [vm_compute; reflexivity|].
    match goal with |- countPc isBuilding (workerPcs ?s) <= _ /\ _ =>
      assert (B : buildsTo (permitPool 8 2) sampleProject s)
        by (exists (initBuild (services sampleProject)), sampleFirst;
            split; vm_compute; reflexivity);
      destruct (builds_in_flight_bounded 8 2 sampleProject s B)
        as (Hbound & _ & _ & _ & Hacquire & _ & Hrelease & _)
    end.
    split; [exact Hbound|]. split.
    + destruct (Hacquire 1 eq_refl) as [Hroom _].
      destruct Hroom as (s' & Hstep & Hb & Hp & _); [simpl; lia|].
      exists s'. auto.
    + destruct (Hrelease 0 (Some (errorString "exit status 1")) eq_refl)
        as (s1 & s2 & s3 & H1 & H2 & H3 & Hd & Hp).
      exists s1, s2, s3. simpl in Hp. repeat split; auto; lia.
  - eexists. split; [vm_compute; reflexivity|].
    match goal with |- countPc isBuilding (workerPcs ?s) <= _ /\ _ =>
      assert (B : buildsTo (permitPool 8 2) sampleProject s)
        by (exists (initBuild (services sampleProject)), sampleBusy;
            split; vm_compute; reflexivity);
      destruct (builds_in_flight_bounded 8 2 sampleProject s B)
        as (Hbound & _ & _ & _ & Hacquire & _)
    end.
    split; [exact Hbound|].
    destruct (Hacquire 2 eq_refl) as [_ Hfull]. apply Hfull. simpl. lia.
Defined.

(** Further checks of the embedding on concrete inputs. *)
Example normalizePath_mixed :
  normalizePath "/Users/:userId//Orders/" = "users/:param/orders".
Proof. reflexivity. Qed.

Example normalizePath_braces :
  normalizePath "/users/{userId}" = "users/{userid}".
Proof. reflexivity. Qed.

Example AddWorker_other_method_kept :
  let w1 := Some {| Path := "/users/:id"; Methods := ["GET"]; Target := "read" |} in
  let w2 := Some {| Path := "/Users/:userId/"; Methods := ["POST"]; Target := "write" |} in
  workers (AddWorker (AddWorker (newApi {| errors := [] |}) w1) w2) = [w1; w2].
Proof. reflexivity. Qed.

Example errorsJoin_message :
  option_map Error (errorsJoin [Some (errorString "a failed"); None; Some (errorString "b failed")])
  = Some ("a failed" ++ String "010"%char "b failed").
Proof. reflexivity. Qed.

(** * Further properties of the code *)

(** ** The Api registry *)

Lemma sharesMethod_sym ms1 ms2 : sharesMethod ms1 ms2 = sharesMethod ms2 ms1.
Proof.
  destruct (sharesMethod ms1 ms2) eqn:E1, (sharesMethod ms2 ms1) eqn:E2; try reflexivity.
  - apply sharesMethod_spec in E1 as (m & H1 & H2).
    assert (sharesMethod ms2 ms1 = true) by (apply sharesMethod_spec; eauto). congruence.
  - apply sharesMethod_spec in E2 as (m & H1 & H2).
    assert (sharesMethod ms1 ms2 = true) by (apply sharesMethod_spec; eauto). congruence.
Qed.

Lemma matchingWorkers_swap (a b : option ApiWorker) :
  matchingWorkers a b = matchingWorkers b a.
Proof.
  unfold matchingWorkers.
  rewrite (String.eqb_sym (normalizePath (GetPath a))).
  destruct (String.eqb _ _); [apply sharesMethod_sym|reflexivity].
Qed.

(** X5. Whether two workers overlap does not depend on which of them was
    registered first. *)
Theorem matchingWorkers_sym (a b : option ApiWorker) :
  matchingWorkers a b = matchingWorkers b a.
Proof.
  destruct (matchingWorkers a b) eqn:E; rewrite matchingWorkers_swap in E;
    now rewrite E.
Qed.

Lemma existsb_false_all {A} (f : A -> bool) l x :
  existsb f l = false -> In x l -> f x = false.
Proof.
  intros H Hx. destruct (f x) eqn:E; [|reflexivity].
  assert (existsb f l = true) by (apply existsb_exists; eauto). congruence.
Qed.

Lemma noOverlap_AddWorker (a : Api) w :
  noOverlap (workers a) -> noOverlap (workers (AddWorker a w)).
Proof.
  intros H. unfold AddWorker.
  destruct (existsb (fun existing => matchingWorkers existing w) (workers a)) eqn:Hex;
    simpl; [exact H|].
  assert (Hnew : forall e i, workers a !! i = Some e -> matchingWorkers e w = false).
  { intros e i Hi. apply (existsb_false_all _ _ e Hex).
    apply list_elem_of_In, list_elem_of_lookup. eauto. }
  intros i j e1 e2 Hij H1 H2.
  apply lookup_app_Some in H1 as [H1|[Hl1 H1]];
    apply lookup_app_Some in H2 as [H2|[Hl2 H2]].
  - eapply H; eauto.
  - apply list_lookup_singleton_Some in H2 as [_ <-]. eapply Hnew; eauto.
  - apply list_lookup_singleton_Some in H1 as [_ <-].
    rewrite matchingWorkers_swap. eapply Hnew; eauto.
  - apply list_lookup_singleton_Some in H1 as [E1 _].
    apply list_lookup_singleton_Some in H2 as [E2 _]. lia.
Qed.

Lemma workers_AddSecurity a name scopes : workers (AddSecurity a name scopes) = workers a.
Proof. now destruct scopes. Qed.

Lemma parent_AddSecurity a name scopes : parent (AddSecurity a name scopes) = parent a.
Proof. now destruct scopes. Qed.

Lemma noOverlap_calls cs : forall a,
  noOverlap (workers a) -> noOverlap (workers (calls a cs)).
Proof.
  unfold calls. induction cs as [|c cs IH]; intros a H; simpl; [exact H|].
  apply IH. destruct c as [w|n sd|n scopes]; simpl.
  - now apply noOverlap_AddWorker.
  - exact H.
  - now rewrite workers_AddSecurity.
Qed.

(** X1. The registry keeps its workers free of overlaps: after any sequence
    of calls on a new Api, no two workers of the list have equal normalized
    paths and a method in common. *)
Theorem Api_workers_never_overlap (owner : FunctionDependencies) (cs : list ApiCall) :
  forall i j e1 e2,
    i <> j ->
    workers (calls (newApi owner) cs) !! i = Some e1 ->
    workers (calls (newApi owner) cs) !! j = Some e2 ->
    ~ collide e1 e2.
Proof.
  intros i j e1 e2 Hij H1 H2 Hc.
  apply matchingWorkers_collide in Hc.
  assert (Hno : noOverlap (workers (calls (newApi owner) cs))).
  { apply noOverlap_calls. intros ? ? ? ? _ Hnil. discriminate. }
  rewrite (Hno i j e1 e2 Hij H1 H2) in Hc. discriminate.
Qed.

Lemma Api_workers_never_overlap_witness :
  let w1 := Some {| Path := "/users/:id"; Methods := ["GET"]; Target := "read" |} in
  let w2 := Some {| Path := "/users/:id"; Methods := ["POST"]; Target := "write" |} in
  ~ collide w1 w2.
Proof.
  intros w1 w2.
  apply (Api_workers_never_overlap {| errors := [] |}
           [callAddWorker w1; callAddSecurity "jwt" None; callAddWorker w2] 0 1);
    [discriminate|reflexivity|reflexivity].
Defined.

(** X2. Every call of [AddWorker] either adds one worker or records one
    error, and no other call does either: over any sequence of calls the
    workers and the recorded errors together grow by the number of
    [AddWorker] calls. *)
Theorem AddWorker_adds_or_records (cs : list ApiCall) : forall a : Api,
  length (workers (calls a cs)) + length (errors (parent (calls a cs)))
  = length (workers a) + length (errors (parent a)) + countAddWorker cs.
Proof.
  unfold calls, countAddWorker. induction cs as [|c cs IH]; intros a; simpl; [lia|].
  rewrite IH. destruct c as [w|n sd|n scopes]; simpl.
  - unfold AddWorker. destruct (existsb _ _); simpl; rewrite length_app; simpl; lia.
  - lia.
  - rewrite workers_AddSecurity, parent_AddSecurity. lia.
Qed.

(** X3. A worker that declares no method (or a nil worker) overlaps with
    nothing: it is always appended, also when its path is registered
    already, and no error is recorded. *)
Theorem AddWorker_without_methods (a : Api) (w : option ApiWorker) :
  GetMethods w = [] ->
  workers (AddWorker a w) = (workers a ++ [w])%list /\
  parent (AddWorker a w) = parent a.
Proof.
  intros Hm. unfold AddWorker.
  assert (Hex : existsb (fun existing => matchingWorkers existing w) (workers a) = false).
  { induction (workers a) as [|e l IH]; simpl; [reflexivity|].
    rewrite IH, orb_false_r. unfold matchingWorkers. rewrite Hm.
    destruct (String.eqb _ _); [|reflexivity].
    unfold sharesMethod. induction (GetMethods e); simpl; auto. }
  rewrite Hex. auto.
Qed.

Lemma AddWorker_without_methods_witness :
  let w := Some {| Path := "/users"; Methods := []; Target := "any" |} in
  let a := AddWorker (newApi {| errors := [] |}) w in
  workers (AddWorker a w) = [w; w] /\ parent (AddWorker a w) = parent a.
Proof.
  intros w a. apply (AddWorker_without_methods a w). reflexivity.
Defined.

Lemma sharesMethod_refl ms : ms <> [] -> sharesMethod ms ms = true.
Proof.
  intros H. apply sharesMethod_spec. destruct ms as [|m ms]; [congruence|].
  exists m. simpl; auto.
Qed.

(** X4. Registering the same worker a second time changes no worker: if it
    declares at least one method, the second call finds an overlap (with
    the first registration, or with what already kept the first out),
    leaves the list as it is and records one more error. *)
Theorem AddWorker_twice (a : Api) (w : option ApiWorker) :
  GetMethods w <> [] ->
  workers (AddWorker (AddWorker a w) w) = workers (AddWorker a w) /\
  errors (parent (AddWorker (AddWorker a w) w))
    = (errors (parent (AddWorker a w)) ++ [overlapMessage])%list.
Proof.
  intros Hm.
  assert (Hself : matchingWorkers w w = true).
  { unfold matchingWorkers. rewrite String.eqb_refl. now apply sharesMethod_refl. }
  assert (Hex : existsb (fun existing => matchingWorkers existing w)
                  (workers (AddWorker a w)) = true).
  { unfold AddWorker at 1.
    destruct (existsb (fun existing => matchingWorkers existing w) (workers a)) eqn:E;
      simpl; [exact E|].
    rewrite existsb_app. simpl. rewrite Hself. now rewrite orb_true_r. }
  remember (AddWorker a w) as a1 eqn:Ha1. clear Ha1.
  unfold AddWorker. rewrite Hex. simpl. auto.
Qed.

Lemma AddWorker_twice_witness :
  let w := Some {| Path := "/users"; Methods := ["GET"]; Target := "list" |} in
  let a := newApi {| errors := [] |} in
  workers (AddWorker (AddWorker a w) w) = [w] /\
  errors (parent (AddWorker (AddWorker a w) w)) = [overlapMessage].
Proof.
  intros w a. apply (AddWorker_twice a w). discriminate.
Defined.

Lemma splitSlash_ToLower p : splitSlash (ToLower p) = List.map ToLower (splitSlash p).
Proof.
  induction p as [|c p IH]; simpl; [reflexivity|].
  rewrite lowerByte_slash. destruct (Ascii.eqb c slash); simpl; [now rewrite IH|].
  rewrite IH. now destruct (splitSlash p).
Qed.

Lemma SplitPath_ToLower p : SplitPath (ToLower p) = List.map ToLower (SplitPath p).
Proof.
  unfold SplitPath. rewrite splitSlash_ToLower.
  induction (splitSlash p) as [|x l IH]; simpl; [reflexivity|].
  rewrite ToLower_nonEmpty. destruct (nonEmpty x); simpl; now rewrite IH.
Qed.

Lemma normalizePath_With p : normalizePath p = normalizePathWith ToLower p.
Proof. reflexivity. Qed.

(** X6. Letter case does not matter to route identity: a path and its
    lower-cased form normalize to the same string. This holds for every
    lower-casing that is idempotent, works on each segment of a path by
    itself, keeps a segment empty or not empty and keeps its first byte a
    colon or not a colon, as [strings.ToLower] does on all text, not on
    ASCII alone. *)
Theorem normalizePath_ignores_case (lower : string -> string) (p : string) :
  (forall s, lower (lower s) = lower s) ->
  (forall q, splitSlash (lower q) = List.map lower (splitSlash q)) ->
  (forall s, nonEmpty (lower s) = nonEmpty s) ->
  (forall s, HasPrefix (lower s) ":" = HasPrefix s ":") ->
  normalizePathWith lower (lower p) = normalizePathWith lower p.
Proof.
  intros Hidem Hsplit Hne Hcolon. unfold normalizePathWith.
  assert (HS : SplitPath (lower p) = List.map lower (SplitPath p)).
  { unfold SplitPath. rewrite Hsplit.
    induction (splitSlash p) as [|x l IH]; simpl; [reflexivity|].
    rewrite Hne. destruct (nonEmpty x); simpl; now rewrite IH. }
  rewrite HS, List.map_map. f_equal.
  apply List.map_ext. intros x. now rewrite Hcolon, Hidem.
Qed.

Lemma normalizePath_ignores_case_witness :
  normalizePath (ToLower "/Users/:ID/Orders") = normalizePath "/Users/:ID/Orders".
Proof.
  rewrite !normalizePath_With.
  apply (normalizePath_ignores_case ToLower "/Users/:ID/Orders").
  - apply ToLower_idem.
  - apply splitSlash_ToLower.
  - apply ToLower_nonEmpty.
  - apply ToLower_colon.
Defined.

(** ** Runtimes and service names *)

Example Ext_examples :
  Ext "services/hello.ts" = ".ts" /\ Ext "a.b/hello" = "" /\
  Ext "x.test.go" = ".go" /\ Ext "hello." = "." /\ Ext "" = "".
Proof. repeat split; reflexivity. Qed.

Example ReplaceAll_examples :
  ReplaceAll "a.b.c" "." "-" = "a-b-c" /\ ReplaceAll "aaa" "aa" "b" = "ba" /\
  ReplaceAll "abc" "" "" = "abc" /\ ReplaceAll "ab" "" "-" = "-a-b-".
Proof. repeat split; reflexivity. Qed.

Example pathToNormalizedServiceName_examples :
  pathToNormalizedServiceName "shop" "services/Hello.ts" = "shop_services-hello" /\
  pathToNormalizedServiceName "shop" "svc/a.tsx.ts" = "shop_svc-ax" /\
  pathToNormalizedServiceName "My Shop" "a b.py" = "my shop_a b".
Proof. repeat split; reflexivity. Qed.

#[local] Arguments String.append !_ _ / : simpl nomatch.

Lemma string_app_nil_r (s : string) : s ++ "" = s.
Proof. induction s as [|c s IH]; simpl; [reflexivity|now rewrite IH]. Qed.

Lemma string_app_assoc (a b c : string) : (a ++ b) ++ c = a ++ (b ++ c).
Proof. induction a as [|x a IH]; simpl; [reflexivity|now rewrite IH]. Qed.

Lemma hasByte_app c a b : hasByte c (a ++ b) = hasByte c a || hasByte c b.
Proof.
  induction a as [|x a IH]; simpl; [reflexivity|]. now rewrite IH, orb_assoc.
Qed.

Lemma HasPrefix_refl s : HasPrefix s s = true.
Proof. induction s as [|c s IH]; simpl; [reflexivity|]. now rewrite Ascii.eqb_refl. Qed.

(** Replacing never brings in a byte that neither the string nor the
    replacement holds. *)
Lemma replaceFrom_keeps_absent c old new s : forall skip,
  hasByte c s = false -> hasByte c new = false ->
  hasByte c (replaceFrom old new skip s) = false.
Proof.
  induction s as [|b s IH]; intros skip Hs Hn; simpl in *; [reflexivity|].
  apply orb_false_iff in Hs as [Hb Hs].
  destruct skip as [|k]; [|now apply IH].
  destruct (HasPrefix (String b s) old).
  - rewrite hasByte_app, Hn. now apply IH.
  - simpl. rewrite Hb. now apply IH.
Qed.

Lemma insertAll_keeps_absent c new s :
  hasByte c s = false -> hasByte c new = false -> hasByte c (insertAll new s) = false.
Proof.
  induction s as [|b s IH]; intros Hs Hn; simpl in *; [exact Hn|].
  apply orb_false_iff in Hs as [Hb Hs].
  rewrite hasByte_app, Hn. simpl. rewrite Hb. now apply IH.
Qed.

Lemma ReplaceAll_keeps_absent c s old new :
  hasByte c s = false -> hasByte c new = false ->
  hasByte c (ReplaceAll s old new) = false.
Proof.
  intros Hs Hn. unfold ReplaceAll.
  destruct (String.eqb old new); [exact Hs|].
  destruct old; [now apply insertAll_keeps_absent|now apply replaceFrom_keeps_absent].
Qed.

(** Replacing a byte by a text without it removes the byte. *)
Lemma ReplaceAll_byte_gone c s new :
  hasByte c new = false -> hasByte c (ReplaceAll s (String c "") new) = false.
Proof.
  intros Hn. unfold ReplaceAll.
  destruct (String.eqb_spec (String c "") new) as [<-|_].
  { simpl in Hn. now rewrite Ascii.eqb_refl in Hn. }
  induction s as [|b s IH]; simpl; [reflexivity|].
  rewrite andb_true_r.
  destruct (Ascii.eqb b c) eqn:E.
  - now rewrite hasByte_app, Hn.
  - simpl. now rewrite E.
Qed.

(** A text whose first byte does not occur in the string is not replaced
    anywhere. *)
Lemma ReplaceAll_absent c old' new s :
  hasByte c s = false -> ReplaceAll s (String c old') new = s.
Proof.
  intros Hs. unfold ReplaceAll.
  destruct (String.eqb (String c old') new); [reflexivity|].
  induction s as [|b s IH]; simpl in *; [reflexivity|].
  apply orb_false_iff in Hs as [Hb Hs]. rewrite Hb. simpl. now rewrite IH.
Qed.

Lemma replaceFrom_skip_all old new s : forall skip,
  String.length s <= skip -> replaceFrom old new skip s = "".
Proof.
  induction s as [|b s IH]; intros skip H; simpl in *; [reflexivity|].
  destruct skip as [|k]; [lia|]. apply IH. lia.
Qed.

(** A replaced byte is replaced part by part. *)
Lemma ReplaceAll_byte_app c new a b :
  ReplaceAll (a ++ b) (String c "") new
  = ReplaceAll a (String c "") new ++ ReplaceAll b (String c "") new.
Proof.
  unfold ReplaceAll. destruct (String.eqb (String c "") new); [reflexivity|].
  induction a as [|x a IH]; simpl; [reflexivity|].
  rewrite andb_true_r. destruct (Ascii.eqb x c).
  - now rewrite IH, string_app_assoc.
  - simpl. now rewrite IH.
Qed.

(** An extension that occurs at the end only is cut off there. *)
Lemma ReplaceAll_suffix x e :
  hasByte "." x = false -> ReplaceAll (x ++ String "." e) (String "." e) "" = x.
Proof.
  intros Hx. unfold ReplaceAll. simpl String.eqb.
  induction x as [|b x IH]; simpl in *.
  - rewrite HasPrefix_refl. simpl. rewrite Nat.sub_0_r.
    now rewrite replaceFrom_skip_all.
  - apply orb_false_iff in Hx as [Hb Hx]. rewrite Hb. simpl. now rewrite IH.
Qed.

Lemma list_ascii_of_string_app a b :
  list_ascii_of_string (a ++ b) = (list_ascii_of_string a ++ list_ascii_of_string b)%list.
Proof. induction a as [|x a IH]; simpl; [reflexivity|now rewrite IH]. Qed.

Lemma extScan_rev e : forall rest acc,
  hasByte "." e = false -> hasByte slash e = false ->
  extScan (rev (list_ascii_of_string e) ++ rest)%list acc = extScan rest (e ++ acc).
Proof.
  induction e as [|c e IH]; intros rest acc Hd Hs; simpl in *; [reflexivity|].
  apply orb_false_iff in Hd as [Hcd Hd]. apply orb_false_iff in Hs as [Hcs Hs].
  rewrite <- app_assoc. rewrite IH by assumption. simpl.
  now rewrite Hcs, Hcd.
Qed.

(** The extension is what follows the last dot of the last path element, the
    dot included. *)
Lemma Ext_suffix stem e :
  hasByte "." e = false -> hasByte slash e = false ->
  Ext (stem ++ String "." e) = String "." e.
Proof.
  intros Hd Hs. unfold Ext.
  rewrite list_ascii_of_string_app. simpl list_ascii_of_string.
  rewrite rev_app_distr. simpl rev. rewrite <- app_assoc.
  rewrite extScan_rev by assumption. simpl. now rewrite string_app_nil_r.
Qed.

Lemma extScan_no_dot l : forall rest acc,
  Forall (fun c => Ascii.eqb c "." = false) l ->
  (rest = [] \/ exists rest', rest = slash :: rest') ->
  extScan (l ++ rest)%list acc = "".
Proof.
  induction l as [|c l IH]; intros rest acc H Hrest; simpl.
  - destruct Hrest as [->|[rest' ->]]; reflexivity.
  - inversion H as [|? ? Hc Hl]; subst. rewrite Hc.
    destruct (Ascii.eqb c slash); [reflexivity|]. now apply IH.
Qed.

Lemma hasByte_Forall c s :
  hasByte c s = false -> Forall (fun b => Ascii.eqb b c = false) (list_ascii_of_string s).
Proof.
  induction s as [|b s IH]; simpl; intros H; [constructor|].
  apply orb_false_iff in H as [Hb Hs]. constructor; auto.
Qed.

(** A last path element without a dot has no extension. *)
Lemma Ext_none dir e :
  hasByte "." e = false ->
  Ext e = "" /\ Ext (dir ++ String slash e) = "".
Proof.
  intros Hd. pose proof (hasByte_Forall _ _ Hd) as HF.
  apply Forall_rev in HF. unfold Ext. split.
  - rewrite <- (app_nil_r (rev _)). apply extScan_no_dot; auto.
  - rewrite list_ascii_of_string_app. simpl list_ascii_of_string.
    rewrite rev_app_distr. simpl rev. rewrite <- app_assoc. simpl.
    apply extScan_no_dot; eauto.
Qed.

(** What [NewRunTimeFromHandler] takes for the runtime of [stem.e]. *)
Lemma runtime_of_extension stem e :
  hasByte "." e = false -> hasByte slash e = false ->
  ReplaceAll (Ext (stem ++ String "." e)) "." "" = e.
Proof.
  intros Hd Hs. rewrite Ext_suffix by assumption.
  unfold ReplaceAll. simpl.
  pose proof (ReplaceAll_absent "." "" "" e Hd) as H.
  unfold ReplaceAll in H. simpl in H. exact H.
Qed.

(** X7. [NewRunTimeFromHandler] goes by the text after the last dot of the
    handler and by nothing else in it: [ts], [js], [py] and [go] give their
    runtime, with the handler kept as it is; [cs] gives the .NET runtime,
    except on an ARM architecture when not starting locally, which is an
    error; any other extension, in whatever letter case, is an error that
    quotes it. *)
Theorem NewRunTimeFromHandler_by_extension
    (GOARCH stem e : string) (isStart : bool) :
  hasByte "." e = false -> hasByte slash e = false ->
  let handler := stem ++ "." ++ e in
  let r := NewRunTimeFromHandler GOARCH handler isStart in
  (e = "go" -> r = (Some (golang "go" handler), None)) /\
  (e = "js" -> r = (Some (javascript "js" handler), None)) /\
  (e = "py" -> r = (Some (python "py" handler), None)) /\
  (e = "ts" -> r = (Some (typescript "ts" handler), None)) /\
  (e = "cs" ->
     r = if negb isStart && strContains GOARCH "arm"
         then (None, Some (errorString dotnetArmMessage))
         else (Some (csharp "cs" handler), None)) /\
  (~ In e ["go"; "js"; "py"; "ts"; "cs"] ->
     r = (None, Some (errorString ("runtime '" ++ e ++ "' not supported")))).
Proof.
  intros Hd Hs handler r. subst r. unfold NewRunTimeFromHandler.
  change handler with (stem ++ String "." e).
  rewrite runtime_of_extension by assumption.
  repeat split.
  - intros ->. simpl. now rewrite andb_false_r.
  - intros ->. simpl. now rewrite andb_false_r.
  - intros ->. simpl. now rewrite andb_false_r.
  - intros ->. simpl. now rewrite andb_false_r.
  - intros ->. simpl. rewrite andb_true_r. now destruct (negb isStart && _).
  - intros Hnot.
    assert (Hne : forall x, In x ["go"; "js"; "py"; "ts"; "cs"] -> String.eqb e x = false).
    { intros x Hx. apply String.eqb_neq. intros ->. contradiction. }
    unfold RuntimeCsharp, RuntimeGolang, RuntimeJavascript, RuntimePython,
      RuntimeTypescript.
    rewrite !Hne by (simpl; auto 10). now rewrite andb_false_r.
Qed.

Lemma NewRunTimeFromHandler_by_extension_witness :
  NewRunTimeFromHandler "arm64" "functions/list.test.ts" false
  = (Some (typescript "ts" "functions/list.test.ts"), None).
Proof.
  destruct (NewRunTimeFromHandler_by_extension "arm64" "functions/list.test" "ts" false
              eq_refl eq_refl) as (_ & _ & _ & H & _).
  exact (H eq_refl).
Defined.

(** X8. A handler whose last path element has no dot has no runtime: the
    error quotes an empty extension, also when a directory of the path has
    a dot. *)
Theorem NewRunTimeFromHandler_without_extension
    (GOARCH dir file : string) (isStart : bool) :
  hasByte "." file = false ->
  NewRunTimeFromHandler GOARCH file isStart
    = (None, Some (errorString "runtime '' not supported")) /\
  NewRunTimeFromHandler GOARCH (dir ++ "/" ++ file) isStart
    = (None, Some (errorString "runtime '' not supported")).
Proof.
  intros Hd. destruct (Ext_none dir file Hd) as [H1 H2].
  unfold NewRunTimeFromHandler. change (dir ++ "/" ++ file) with (dir ++ String slash file).
  rewrite H1, H2. simpl. rewrite andb_false_r. auto.
Qed.

Lemma NewRunTimeFromHandler_without_extension_witness :
  NewRunTimeFromHandler "amd64" "v1.2/Makefile" true
    = (None, Some (errorString "runtime '' not supported")).
Proof.
  destruct (NewRunTimeFromHandler_without_extension "amd64" "v1.2" "Makefile" true eq_refl)
    as [_ H].
  exact H.
Defined.

Lemma lowerByte_dot c : Ascii.eqb (lowerByte c) "." = Ascii.eqb c ".".
Proof. destruct c as [[] [] [] [] [] [] [] []]; reflexivity. Qed.

Lemma ToLower_hasByte c s :
  (forall b, Ascii.eqb (lowerByte b) c = Ascii.eqb b c) ->
  hasByte c (ToLower s) = hasByte c s.
Proof.
  intros H. induction s as [|b s IH]; simpl; [reflexivity|]. now rewrite H, IH.
Qed.

Lemma pathToNormalizedServiceName_With name servicePath :
  pathToNormalizedServiceName name servicePath
  = pathToNormalizedServiceNameWith ToLower name servicePath.
Proof. reflexivity. Qed.

(** X9. A service name made by [pathToNormalizedServiceName] holds no path
    separator and no dot, and lower-casing leaves it as it is, whatever the
    project name and the path. This holds for every lower-casing that is
    idempotent and brings in neither a separator nor a dot, as
    [strings.ToLower] does on all text, not on ASCII alone. *)
Theorem service_name_shape (lower : string -> string) (name servicePath : string) :
  (forall s, lower (lower s) = lower s) ->
  (forall s, hasByte slash s = false -> hasByte slash (lower s) = false) ->
  (forall s, hasByte "." s = false -> hasByte "." (lower s) = false) ->
  let r := pathToNormalizedServiceNameWith lower name servicePath in
  hasByte slash r = false /\ hasByte "." r = false /\ lower r = r.
Proof.
  intros Hidem Hslash Hdot r. subst r. unfold pathToNormalizedServiceNameWith.
  set (s1 := name ++ "_" ++ servicePath).
  set (s2 := ReplaceAll s1 "/" "-").
  set (s3 := ReplaceAll s2 (Ext s2) "").
  set (s4 := ReplaceAll s3 "." "-").
  set (s5 := ReplaceAll s4 "[^\w]" "-").
  assert (H2 : hasByte slash s2 = false) by (apply ReplaceAll_byte_gone; reflexivity).
  assert (H3 : hasByte slash s3 = false) by (apply ReplaceAll_keeps_absent; auto).
  assert (H4 : hasByte slash s4 = false) by (apply ReplaceAll_keeps_absent; auto).
  assert (H5 : hasByte slash s5 = false) by (apply ReplaceAll_keeps_absent; auto).
  assert (D4 : hasByte "." s4 = false) by (apply ReplaceAll_byte_gone; reflexivity).
  assert (D5 : hasByte "." s5 = false) by (apply ReplaceAll_keeps_absent; auto).
  split; [|split].
  - now apply Hslash.
  - now apply Hdot.
  - apply Hidem.
Qed.

Lemma service_name_shape_witness :
  let r := pathToNormalizedServiceName "My.Shop" "svc/Api.V2/Hello.World.ts" in
  hasByte slash r = false /\ hasByte "." r = false /\ ToLower r = r.
Proof.
  intros r. subst r. rewrite pathToNormalizedServiceName_With.
  apply (service_name_shape ToLower "My.Shop" "svc/Api.V2/Hello.World.ts").
  - apply ToLower_idem.
  - intros s H. rewrite ToLower_hasByte; [exact H|apply lowerByte_slash].
  - intros s H. rewrite ToLower_hasByte; [exact H|apply lowerByte_dot].
Defined.

Lemma service_name_plain (name path e : string) :
  hasByte "." name = false -> hasByte "[" name = false ->
  hasByte "." path = false -> hasByte "[" path = false ->
  hasByte "." e = false -> hasByte slash e = false ->
  pathToNormalizedServiceName name (path ++ "." ++ e)
  = ToLower (ReplaceAll (name ++ "_" ++ path) "/" "-").
Proof.
  intros Dn Bn Dp Bp De Se. unfold pathToNormalizedServiceName.
  set (q := name ++ "_" ++ path).
  assert (Dq : hasByte "." q = false).
  { unfold q. rewrite !hasByte_app, Dn, Dp. reflexivity. }
  assert (Bq : hasByte "[" q = false).
  { unfold q. rewrite !hasByte_app, Bn, Bp. reflexivity. }
  set (q' := ReplaceAll q "/" "-").
  assert (Dq' : hasByte "." q' = false) by (apply ReplaceAll_keeps_absent; auto).
  assert (Bq' : hasByte "[" q' = false) by (apply ReplaceAll_keeps_absent; auto).
  assert (E1 : name ++ "_" ++ path ++ "." ++ e = q ++ String "." e).
  { unfold q. now rewrite !string_app_assoc. }
  rewrite E1.
  assert (E2 : ReplaceAll (q ++ String "." e) "/" "-" = q' ++ String "." e).
  { rewrite ReplaceAll_byte_app. fold q'. f_equal.
    apply (ReplaceAll_absent slash "" "-"). simpl. exact Se. }
  rewrite E2, Ext_suffix by assumption.
  rewrite ReplaceAll_suffix by assumption.
  rewrite (ReplaceAll_absent "." "" "-" q' Dq').
  now rewrite (ReplaceAll_absent "[" "^\w]" "-" q' Bq').
Qed.

(** X10. For a project name and a path without dots and brackets before the
    extension, the service name is the project name, an underscore and the
    path without its extension, with every separator turned into a dash and
    all of it in lower case. *)
Theorem service_name_of_plain_path (name path e : string) :
  hasByte "." name = false -> hasByte "[" name = false ->
  hasByte "." path = false -> hasByte "[" path = false ->
  hasByte "." e = false -> hasByte slash e = false ->
  pathToNormalizedServiceName name (path ++ "." ++ e)
  = ToLower (ReplaceAll (name ++ "_" ++ path) "/" "-").
Proof.
  intros Dn Bn Dp Bp De Se. now apply service_name_plain.
Qed.

Lemma service_name_of_plain_path_witness :
  pathToNormalizedServiceName "shop" "services/api/Hello.ts" = "shop_services-api-hello".
Proof.
  exact (service_name_of_plain_path "shop" "services/api/Hello" "ts"
           eq_refl eq_refl eq_refl eq_refl eq_refl eq_refl).
Defined.

(** ** The environment of a service started by command *)

Lemma foldr_insert_union (l : list (string * string)) (d : gmap string string) :
  foldr (uncurry (fun key value vars => <[key := value]> vars)) d l
  = list_to_map l ∪ d.
Proof.
  induction l as [|[k v] l IH]; simpl.
  - now rewrite (left_id_L ∅ (∪)).
  - rewrite IH. now rewrite insert_union_l.
Qed.

(** X11. In the environment of a service started by command, what the
    caller passes wins: every variable of [env] has the caller's value, also
    [NITRIC_ENVIRONMENT] and [SERVICE_ADDRESS]; the three variables of the
    code are there with their own values when [env] does not set them, and
    nothing else is. *)
Theorem envVariables_caller_wins (port : Z) (env : gmap string string) :
  envVariables port env = env ∪ defaultEnvVariables port /\
  (forall key value, env !! key = Some value ->
     envVariables port env !! key = Some value) /\
  (env !! "PYTHONUNBUFFERED" = None ->
     envVariables port env !! "PYTHONUNBUFFERED" = Some "TRUE") /\
  (env !! "NITRIC_ENVIRONMENT" = None ->
     envVariables port env !! "NITRIC_ENVIRONMENT" = Some "run") /\
  (env !! "SERVICE_ADDRESS" = None ->
     envVariables port env !! "SERVICE_ADDRESS" = Some ("localhost:" ++ Itoa port)) /\
  (forall key, env !! key = None ->
     key <> "PYTHONUNBUFFERED" -> key <> "NITRIC_ENVIRONMENT" ->
     key <> "SERVICE_ADDRESS" ->
     envVariables port env !! key = None).
Proof.
  assert (E : envVariables port env = env ∪ defaultEnvVariables port).
  { unfold envVariables. rewrite map_fold_foldr, foldr_insert_union.
    now rewrite list_to_map_to_list. }
  rewrite E. split; [reflexivity|]. repeat split.
  - intros key value H. now apply lookup_union_Some_l.
  - intros H. rewrite lookup_union_r by exact H. reflexivity.
  - intros H. rewrite lookup_union_r by exact H. reflexivity.
  - intros H. rewrite lookup_union_r by exact H. reflexivity.
  - intros key H H1 H2 H3. rewrite lookup_union_r by exact H.
    unfold defaultEnvVariables. now rewrite !lookup_insert_ne, lookup_empty by congruence.
Qed.

Example envVariables_example :
  envVariables 50051 (<["NITRIC_ENVIRONMENT" := "test"]> (<["DEBUG" := "1"]> ∅))
  = <["PYTHONUNBUFFERED" := "TRUE"]>
      (<["NITRIC_ENVIRONMENT" := "test"]>
         (<["SERVICE_ADDRESS" := "localhost:50051"]> (<["DEBUG" := "1"]> ∅))).
Proof. vm_compute. reflexivity. Qed.

(** ** The message of the joined error *)

Lemma HasPrefix_nil s : HasPrefix s "" = true.
Proof. reflexivity. Qed.

Lemma HasPrefix_app a b x : HasPrefix a x = true -> HasPrefix (a ++ b) x = true.
Proof.
  revert a. induction x as [|c x IH]; intros a H; [reflexivity|].
  destruct a as [|d a]; simpl in *; [discriminate|].
  apply andb_prop in H as [H1 H2]. rewrite H1. simpl. now apply IH.
Qed.

Lemma strContains_refl x : strContains x x = true.
Proof. destruct x; simpl; [reflexivity|]. now rewrite Ascii.eqb_refl, HasPrefix_refl. Qed.

Lemma strContains_nil s : strContains s "" = true.
Proof. destruct s; reflexivity. Qed.

Lemma strContains_app_r a b x : strContains b x = true -> strContains (a ++ b) x = true.
Proof.
  intros H. induction a as [|c a IH]; simpl; [exact H|].
  fold (strContains (a ++ b) x). rewrite IH. apply orb_true_r.
Qed.

Lemma strContains_app_l a b x : strContains a x = true -> strContains (a ++ b) x = true.
Proof.
  induction a as [|c a IH]; intros H.
  - destruct x; [apply strContains_nil|discriminate].
  - change (strContains (String c a) x)
      with (HasPrefix (String c a) x || strContains a x) in H.
    change (strContains (String c a ++ b) x)
      with (HasPrefix (String c a ++ b) x || strContains (a ++ b) x).
    apply orb_prop in H as [H|H].
    + now rewrite (HasPrefix_app _ b _ H).
    + rewrite (IH H). apply orb_true_r.
Qed.

(** Joined texts hold each of the texts. *)
Lemma Join_contains l sep x : In x l -> strContains (Join l sep) x = true.
Proof.
  induction l as [|e l IH]; intros H; [destruct H|].
  destruct l as [|e2 l'].
  - destruct H as [->|[]]. apply strContains_refl.
  - change (Join (e :: e2 :: l') sep) with (e ++ sep ++ Join (e2 :: l') sep).
    destruct H as [->|H].
    + apply strContains_app_l, strContains_refl.
    + apply strContains_app_r, strContains_app_r, IH, H.
Qed.

(** When a session fails, the result is the joined error of the failures. *)
Lemma collect_failure p world order :
  schedule p order -> sessionErrors p world <> [] ->
  exists errs,
    CollectServicesRequirements p world order = (None, Some (joinError errs)) /\
    Permutation errs (sessionErrors p world).
Proof.
  intros Hsched Hne. unfold schedule in Hsched.
  unfold CollectServicesRequirements. rewrite collect_fold. simpl.
  assert (Herrs : Permutation (omap (appendedError p world) order) (sessionErrors p world)).
  { unfold sessionErrors. now rewrite Hsched. }
  destruct (omap (appendedError p world) order) as [|e errs] eqn:He.
  - apply Permutation_nil in Herrs. congruence.
  - simpl. exists (e :: errs). split; [|assumption].
    f_equal. apply (errorsJoin_Some (e :: errs)). discriminate.
Qed.

(** X13. The error returned by [CollectServicesRequirements] tells of every
    failure: whatever the order in which the sessions finish, its message
    holds the message of the error of each failing session. *)
Theorem collect_error_mentions_every_failure
    (p : Project) (world : nat -> Session) (order : list nat) (i : nat) (err : error) :
  schedule p order ->
  i < length (services p) ->
  snd (sessionOf p world i) = Some err ->
  exists joined,
    CollectServicesRequirements p world order = (None, Some joined) /\
    strContains (Error joined) (Error err) = true.
Proof.
  intros Hsched Hi Herr.
  assert (Hin : In err (sessionErrors p world)).
  { unfold sessionErrors. apply list_elem_of_In, list_elem_of_omap.
    exists i. split; [|exact Herr]. apply list_elem_of_In, in_seq. lia. }
  destruct (collect_failure p world order Hsched) as (errs & Hres & Hperm).
  { intros E. rewrite E in Hin. destruct Hin. }
  exists (joinError errs). split; [exact Hres|].
  simpl. apply Join_contains. apply in_map.
  eapply Permutation_in; [apply Permutation_sym; exact Hperm|exact Hin].
Qed.

Lemma collect_error_mentions_every_failure_witness :
  let svc n := {| Name := n; Type_ := "default"; filepath := n ++ ".ts"; startCmd := "" |} in
  let p := {| ProjectName := "shop"; Directory := "."; Preview := [];
              services := [svc "a"; svc "b"; svc "c"] |} in
  let ok := {| listenErr := None; splitErr := None; declared := []; runErr := None |} in
  let failing m := {| listenErr := None; splitErr := None; declared := [];
                      runErr := Some (errorString m) |} in
  let world i := match i with 0 => failing "a: exit status 1" | 1 => ok
                         | _ => failing "c: exit status 2" end in
  exists joined,
    CollectServicesRequirements p world [1; 2; 0] = (None, Some joined) /\
    strContains (Error joined) "a: exit status 1" = true.
Proof.
  intros svc p ok failing world.
  apply (collect_error_mentions_every_failure p world [1; 2; 0] 0
           (errorString "a: exit status 1")).
  - unfold schedule; simpl.
    apply Permutation_sym.
    apply (Permutation_cons_app [1; 2] [] 0), Permutation_refl.
  - simpl; lia.
  - reflexivity.
Defined.

(** ** The order of the updates on the stream *)

Lemma updatesOf_app i l j u :
  updatesOf i (l ++ [(j, u)])
  = (updatesOf i l ++ (if Nat.eqb j i then [u] else []))%list.
Proof.
  unfold updatesOf. rewrite List.filter_app, List.map_app. simpl.
  destruct (Nat.eqb j i); reflexivity.
Qed.

Section StreamOrder.

Variable cap : nat.
Variable svcs : list Service.

(** What one step does to the program counters and to the stream: it moves
    at most one goroutine, without sending, or it sends a progress update of
    a goroutine inside [BuildImage], or it sends the terminal update of a
    goroutine that then is past its build. *)
Lemma step_effect s a s' :
  Inv cap svcs s -> step cap svcs s a = Some s' ->
  (sent s' = sent s /\
   (workerPcs s' = workerPcs s \/
    exists k old new,
      workerPcs s !! k = Some old /\ workerPcs s' = <[k := new]> (workerPcs s) /\
      (phase new = phase old \/ (phase old = 0 /\ phase new = 1)))) \/
  (exists k svc msg,
     svcs !! k = Some svc /\ workerPcs s !! k = Some wBuilding /\
     workerPcs s' = workerPcs s /\
     sent s' = (sent s ++ [(k, progressUpdate svc msg)])%list) \/
  (exists k svc err,
     svcs !! k = Some svc /\ workerPcs s !! k = Some (wSend err) /\
     workerPcs s' = <[k := wRelease]> (workerPcs s) /\
     sent s' = (sent s ++ [(k, finalUpdate svc err)])%list).
Proof.
  intros I H. unfold step in H. rewrite (inv_panic _ _ _ I) in H.
  destruct a as [|k|k msg|k err|].
  - left. unfold mainStep in H. destruct (mainPc s) as [j|] eqn:Hm; [|discriminate].
    destruct (svcs !! j) as [svc|] eqn:Hsvc; injection H as <-; simpl;
      (split; [reflexivity|]); [|now left].
    right.
    assert (Hlt : j < length (workerPcs s)).
    { rewrite (inv_length _ _ _ I). eapply lookup_lt_Some; eauto. }
    destruct (lookup_lt_is_Some_2 _ _ Hlt) as [old Hj].
    assert (old = wNotStarted) as ->.
    { pose proof (inv_spawn _ _ _ I _ _ Hj) as Hs. rewrite Hm in Hs. apply Hs. lia. }
    exists j, wNotStarted, wAcquire. auto.
  - unfold workerStep in H.
    destruct (svcs !! k) as [svc|] eqn:Hsvc; [|discriminate].
    destruct (workerPcs s !! k) as [pc|] eqn:Hk; [|discriminate].
    destruct pc as [| | |err| | |]; try discriminate.
    + destruct (Nat.ltb (permits s) cap); [|discriminate]. injection H as <-.
      left. simpl. split; [reflexivity|]. right.
      exists k, wAcquire, wBuilding. auto.
    + injection H as <-.
      destruct (active_worker_blocks_close cap svcs s k _ I Hk) as [_ Hopen];
        [discriminate|].
      right. right. exists k, svc, err. unfold sendUpdate. rewrite Hopen. simpl. auto.
    + destruct (permits s); [discriminate|]. injection H as <-.
      left. simpl. split; [reflexivity|]. right.
      exists k, wRelease, wDone. auto.
    + pose proof (countPc_pos inWaitGroup _ _ _ Hk eq_refl) as Hpos.
      rewrite <- (inv_wg _ _ _ I) in Hpos.
      destruct (wgCounter s); [lia|]. injection H as <-.
      left. simpl. split; [reflexivity|]. right.
      exists k, wDone, wExited. auto.
  - unfold writeStep in H.
    destruct (svcs !! k) as [svc|] eqn:Hsvc; [|discriminate].
    destruct (workerPcs s !! k) as [pc|] eqn:Hk; [|discriminate].
    destruct pc; try discriminate. injection H as <-.
    destruct (active_worker_blocks_close cap svcs s k _ I Hk) as [_ Hopen];
      [discriminate|].
    right. left. exists k, svc, msg. unfold sendUpdate. rewrite Hopen. simpl. auto.
  - unfold returnStep in H.
    destruct (workerPcs s !! k) as [pc|] eqn:Hk; [|discriminate].
    destruct pc; try discriminate. injection H as <-.
    left. simpl. split; [reflexivity|]. right.
    exists k, wBuilding, (wSend err). auto.
  - left. unfold closerStep in H. destruct (closerPc s) as [| |j|]; try discriminate.
    + destruct (Nat.eqb (wgCounter s) 0); [|discriminate]. injection H as <-. auto.
    + destruct (Nat.ltb j cap).
      * destruct (Nat.ltb (permits s) cap); [|discriminate]. injection H as <-. auto.
      * injection H as <-. auto.
Qed.

Lemma streamOk_phase svc old new us :
  phase new = phase old \/ (phase old = 0 /\ phase new = 1) ->
  streamOk svc old us -> streamOk svc new us.
Proof.
  unfold streamOk. intros [->|[-> ->]]; [auto|]. intros ->. constructor.
Qed.

Lemma streamInv_step s a s' :
  Inv cap svcs s -> streamInv svcs s -> step cap svcs s a = Some s' -> streamInv svcs s'.
Proof.
  intros I HS Hstep i pc svc Hi Hsvc.
  destruct (step_effect s a s' I Hstep)
    as [[Hsent [Hpcs|(k & old & new & Hk & Hpcs & Hph)]]
       |[(k & svc' & msg & Hsvc' & Hk & Hpcs & Hsent)
        |(k & svc' & err & Hsvc' & Hk & Hpcs & Hsent)]];
    rewrite Hsent; rewrite Hpcs in Hi.
  - now apply HS.
  - apply list_lookup_insert_Some in Hi as [(-> & <- & _)|(_ & Hi)]; [|now apply HS].
    eapply streamOk_phase; [exact Hph|]. now apply HS.
  - rewrite updatesOf_app. specialize (HS i pc svc Hi Hsvc).
    destruct (Nat.eqb_spec k i) as [->|_]; [|now rewrite app_nil_r].
    rewrite Hk in Hi. injection Hi as <-. rewrite Hsvc' in Hsvc. injection Hsvc as ->.
    unfold streamOk in *. simpl in *.
    apply Forall_app. split; [exact HS|]. constructor; [now exists msg|constructor].
  - rewrite updatesOf_app.
    apply list_lookup_insert_Some in Hi as [(-> & <- & _)|(Hne & Hi)].
    + rewrite Nat.eqb_refl. rewrite Hsvc' in Hsvc. injection Hsvc as ->.
      specialize (HS i _ svc Hk Hsvc'). unfold streamOk in *. simpl in *. eauto.
    + apply Nat.eqb_neq in Hne. rewrite Hne, app_nil_r. now apply HS.
Qed.

Lemma streamInv_exec acts : forall s s',
  Inv cap svcs s -> streamInv svcs s -> exec cap svcs s acts = Some s' -> streamInv svcs s'.
Proof.
  induction acts as [|a acts IH]; intros s s' I HS H; simpl in H.
  - now injection H as <-.
  - destruct (step cap svcs s a) as [s1|] eqn:Hs; [|discriminate].
    eapply IH; [| |exact H].
    + eapply Inv_step; eauto.
    + eapply streamInv_step; eauto.
Qed.

Lemma streamInv_reachable s : reachable cap svcs s -> streamInv svcs s.
Proof.
  intros [acts H]. eapply streamInv_exec; [apply Inv_init| |exact H].
  intros i pc svc Hi _. simpl in Hi. apply lookup_replicate in Hi as [-> _].
  reflexivity.
Qed.

End StreamOrder.

(** X12. On the update stream the updates of one service come in order: its
    progress updates first, sent while its image is built, then at most one
    terminal update, after which nothing of that service follows; all carry
    the name of the service. Once the stream is closed the terminal update
    is there. *)
Theorem stream_updates_in_order (cap : nat) (p : Project) (s : BuildState)
    (i : nat) (svc : Service) :
  buildsTo cap p s -> services p !! i = Some svc ->
  exists progress final,
    updatesOf i (sent s) = (progress ++ final)%list /\
    Forall (fun u => exists msg, u = progressUpdate svc msg) progress /\
    (final = [] \/ exists err, final = [finalUpdate svc err]) /\
    (closedChan s = true -> final <> []).
Proof.
  intros B Hsvc. pose proof (buildsTo_Inv _ _ _ B) as I.
  pose proof (streamInv_reachable cap (services p) s
                (proj2 (buildsTo_reachable _ _ _ B))) as HS.
  assert (Hlt : i < length (workerPcs s)).
  { rewrite (inv_length _ _ _ I). eapply lookup_lt_Some; eauto. }
  destruct (lookup_lt_is_Some_2 _ _ Hlt) as [pc Hi].
  specialize (HS i pc svc Hi Hsvc). unfold streamOk in HS.
  assert (Hclosed : closedChan s = true -> phase pc = 2).
  { intros Hcl. pose proof (inv_closed _ _ _ I) as Icl. rewrite Hcl in Icl.
    assert (pc = wExited) as ->; [|reflexivity].
    apply (inv_closer _ _ _ I) with (j := i); [|exact Hi].
    destruct (closerPc s); [discriminate..|reflexivity]. }
  destruct (phase pc) as [|[|n]] eqn:Hph.
  - exists [], []. rewrite HS. repeat split; auto. intros Hcl. specialize (Hclosed Hcl). lia.
  - exists (updatesOf i (sent s)), []. rewrite app_nil_r. repeat split; auto.
    intros Hcl. specialize (Hclosed Hcl). lia.
  - destruct HS as (pre & err & -> & Hpre).
    exists pre, [finalUpdate svc err]. repeat split; eauto.
Qed.

Lemma stream_updates_in_order_witness :
  exists s,
    exec 2 (services sampleProject) (initBuild (services sampleProject)) sampleRun = Some s /\
    exists progress final,
      updatesOf 0 (sent s) = (progress ++ final)%list /\
      Forall (fun u => exists msg, u = progressUpdate (sampleService "a") msg) progress /\
      (final = [] \/ exists err, final = [finalUpdate (sampleService "a") err]) /\
      (closedChan s = true -> final <> []).
Proof.
  eexists. split; [vm_compute; reflexivity|].
  match goal with |- context [sent ?s] =>
    apply (stream_updates_in_order 2 sampleProject s 0 (sampleService "a"));
      [exists (initBuild (services sampleProject)), sampleRun;
         split; vm_compute; reflexivity
      |reflexivity]
  end.
Defined.

(** ** Loading a project from its configuration *)

Example fromProjectConfiguration_sample :
  fromProjectConfiguration sampleOutside sampleConfiguration
  = (Some {| ProjectName := "shop"; Directory := "."; Preview := ["sql-databases"];
             services :=
               [ NewService "shop_services-a" "" "a.ts" "npm run dev";
                 NewService "shop_services-b" "default" "b.ts" "npm run dev";
                 NewService "shop_jobs-nightly" "job" "nightly.py" "" ] |}, None).
Proof. vm_compute. reflexivity. Qed.

Section Loading.

Variable E : Outside.
Variable pc : ProjectConfiguration.

Lemma loadFiles_ok serviceSpec files rest : forall type st st',
  loadFiles E pc serviceSpec rest files type st = inl st' ->
  List.map serviceView (ldServices st')
    = (List.map serviceView (ldServices st)
       ++ List.map (fun f => expectedView E pc (serviceSpec, f)) rest)%list /\
  (rest <> [] -> scRuntime serviceSpec <> "" ->
     is_Some (pcRuntimes pc !! scRuntime serviceSpec)) /\
  (scMatch serviceSpec <> "" ->
     forall seen, seenOk st seen -> seenOk st' (seen ++ rest)).
Proof.
  induction rest as [|f rest IH]; intros type st st' H; simpl in H.
  - injection H as <-. split; [|split].
    + now rewrite app_nil_r.
    + intros Hne. congruence.
    + intros _ seen Hseen. now rewrite app_nil_r.
  - destruct (buildContextError E pc serviceSpec _ f _) as [err|] eqn:Hbc; [discriminate|].
    destruct (String.eqb_spec (default "" (ldMatches st !! f)) "") as [Hprev|Hprev];
      simpl in H; [|discriminate].
    destruct (filepathRel E (scBasedir serviceSpec) f) as [relativeFilePath [err|]] eqn:Hrel;
      [discriminate|].
    destruct (IH _ _ _ H) as (Hviews & _ & Hseen). simpl in Hviews, Hseen.
    split; [|split].
    + rewrite Hviews, List.map_app, <- app_assoc. simpl.
      unfold expectedView, serviceView. simpl. now rewrite Hrel.
    + intros _ Hrt. unfold buildContextError in Hbc.
      apply String.eqb_neq in Hrt. rewrite Hrt in Hbc. simpl in Hbc.
      destruct (pcRuntimes pc !! scRuntime serviceSpec); [eauto|discriminate].
    + intros Hm seen [Hnd Hrec].
      replace (seen ++ f :: rest)%list with ((seen ++ [f]) ++ rest)%list
        by now rewrite <- app_assoc.
      apply (Hseen Hm). split.
      * apply NoDup_app. split; [exact Hnd|]. split; [|apply NoDup_singleton].
        intros x Hx Hxf. apply list_elem_of_singleton in Hxf. subst x.
        apply list_elem_of_In in Hx. destruct (Hrec f Hx) as (m & Hlk & Hne).
        rewrite Hlk in Hprev. simpl in Hprev. contradiction.
      * intros g Hg. simpl. apply in_app_or in Hg as [Hg|[<-|[]]].
        -- destruct (String.eqb_spec f g) as [<-|Hfg].
           ++ exists (scMatch serviceSpec). now rewrite lookup_insert_eq.
           ++ rewrite lookup_insert_ne by exact Hfg. now apply Hrec.
        -- exists (scMatch serviceSpec). now rewrite lookup_insert_eq.
Qed.

Lemma loadSpecs_ok specs : forall st st',
  loadSpecs E pc specs st = inl st' ->
  List.map serviceView (ldServices st')
    = (List.map serviceView (ldServices st)
       ++ List.map (expectedView E pc) (matchedFiles E specs))%list /\
  (forall serviceSpec, In serviceSpec specs ->
     Glob E (filepathJoin E (scBasedir serviceSpec) (scMatch serviceSpec))
       = (fst (Glob E (filepathJoin E (scBasedir serviceSpec) (scMatch serviceSpec))), None) /\
     (fst (Glob E (filepathJoin E (scBasedir serviceSpec) (scMatch serviceSpec))) <> [] ->
      scRuntime serviceSpec <> "" ->
      is_Some (pcRuntimes pc !! scRuntime serviceSpec))) /\
  ((forall serviceSpec, In serviceSpec specs -> scMatch serviceSpec <> "") ->
   forall seen, seenOk st seen ->
     seenOk st' (seen ++ List.map snd (matchedFiles E specs))).
Proof.
  induction specs as [|serviceSpec specs IH]; intros st st' H; simpl in H.
  - injection H as <-. simpl. split; [|split].
    + now rewrite app_nil_r.
    + intros spec [].
    + intros _ seen Hseen. now rewrite app_nil_r.
  - destruct (Glob E _) as [files [err|]] eqn:Hglob; [discriminate|].
    destruct (loadFiles E pc serviceSpec files files (scType serviceSpec) st)
      as [st1|err] eqn:Hfiles; [|discriminate].
    destruct (loadFiles_ok _ _ _ _ _ _ Hfiles) as (Hv1 & Hrt1 & Hs1).
    destruct (IH _ _ H) as (Hv2 & Hrt2 & Hs2).
    split; [|split].
    + rewrite Hv2, Hv1. simpl. rewrite Hglob. simpl.
      rewrite List.map_app, List.map_map, <- app_assoc. reflexivity.
    + intros spec [<-|Hin]; [|now apply Hrt2].
      rewrite Hglob. simpl. split; [reflexivity|exact Hrt1].
    + intros Hm seen Hseen. simpl. rewrite Hglob. simpl.
      rewrite List.map_app, List.map_map. simpl. rewrite List.map_id, app_assoc.
      apply Hs2; [intros; apply Hm; now right|].
      apply Hs1; [apply Hm; now left|exact Hseen].
Qed.

End Loading.

(** X14. A project loaded from its configuration takes name, directory and
    preview features from it and has one service for each file matched by a
    pattern, in the order of the patterns and, within a pattern, of the
    files: named after the file from the project directory, with the file
    path relative to the base directory of the pattern and the start command
    of its configuration. *)
Theorem fromProjectConfiguration_services
    (E : Outside) (projectConfig : ProjectConfiguration) (p : Project) :
  fromProjectConfiguration E projectConfig = (Some p, None) ->
  ProjectName p = pcName projectConfig /\
  Directory p = pcDirectory projectConfig /\
  Preview p = pcPreview projectConfig /\
  List.map serviceView (services p)
    = List.map (expectedView E projectConfig) (matchedFiles E (pcServices projectConfig)) /\
  length (services p) = length (matchedFiles E (pcServices projectConfig)).
Proof.
  unfold fromProjectConfiguration. intros H.
  destruct (loadSpecs E projectConfig _ _) as [st|err] eqn:Hl; [|discriminate].
  injection H as <-. simpl.
  destruct (loadSpecs_ok E projectConfig _ _ _ Hl) as (Hv & _). simpl in Hv.
  repeat split; [exact Hv|].
  rewrite <- (length_map serviceView), Hv, length_map. reflexivity.
Qed.

Lemma fromProjectConfiguration_services_witness :
  exists p,
    fromProjectConfiguration sampleOutside sampleConfiguration = (Some p, None) /\
    List.map serviceView (services p)
    = [("shop_services-a", "a.ts", "npm run dev");
       ("shop_services-b", "b.ts", "npm run dev");
       ("shop_jobs-nightly", "nightly.py", "")].
Proof.
  eexists. split; [vm_compute; reflexivity|].
  match goal with |- List.map serviceView (services ?p) = _ =>
    destruct (fromProjectConfiguration_services sampleOutside sampleConfiguration p eq_refl)
      as (_ & _ & _ & H & _)
  end.
  rewrite H. vm_compute. reflexivity.
Defined.

(** X15. A file is one service only: when the patterns are not empty and a
    project is loaded, no file was matched twice, by two patterns or by
    one. *)
Theorem fromProjectConfiguration_single_match
    (E : Outside) (projectConfig : ProjectConfiguration) (p : Project) :
  fromProjectConfiguration E projectConfig = (Some p, None) ->
  (forall serviceSpec, In serviceSpec (pcServices projectConfig) ->
     scMatch serviceSpec <> "") ->
  NoDup (List.map snd (matchedFiles E (pcServices projectConfig))).
Proof.
  unfold fromProjectConfiguration. intros H Hm.
  destruct (loadSpecs E projectConfig _ _) as [st|err] eqn:Hl; [|discriminate].
  destruct (loadSpecs_ok E projectConfig _ _ _ Hl) as (_ & _ & Hs).
  destruct (Hs Hm []) as [Hnd _]; [|exact Hnd].
  split; [constructor|]. intros f [].
Qed.

Lemma fromProjectConfiguration_single_match_witness :
  NoDup (List.map snd (matchedFiles sampleOutside (pcServices sampleConfiguration))).
Proof.
  eapply (fromProjectConfiguration_single_match sampleOutside sampleConfiguration).
  - vm_compute. reflexivity.
  - intros spec [<-|[<-|[]]]; discriminate.
Defined.

(** A file matched by two patterns stops the loading. *)
Example fromProjectConfiguration_double_match :
  let both :=
    {| pcName := "shop"; pcDirectory := ".";
       pcServices :=
         [ {| scBasedir := "services"; scMatch := "*.ts"; scRuntime := "";
              scType := ""; scStart := "" |};
           {| scBasedir := "services"; scMatch := "a.*"; scRuntime := "";
              scType := ""; scStart := "" |} ];
       pcRuntimes := ∅; pcPreview := [] |} in
  fromProjectConfiguration sampleOutside both
  = (None, Some (errorString
       "service file services/a.ts matched by multiple patterns: *.ts and a.*, services must only be matched by a single pattern")).
Proof. vm_compute. reflexivity. Qed.

(** X16. When a project is loaded, every configuration that names a runtime
    and matches a file finds that runtime among the runtimes of the
    project; one that matches no file is not looked at. *)
Theorem fromProjectConfiguration_runtime_known
    (E : Outside) (projectConfig : ProjectConfiguration) (p : Project)
    (serviceSpec : ServiceConfiguration) :
  fromProjectConfiguration E projectConfig = (Some p, None) ->
  In serviceSpec (pcServices projectConfig) ->
  scRuntime serviceSpec <> "" ->
  fst (Glob E (filepathJoin E (scBasedir serviceSpec) (scMatch serviceSpec))) <> [] ->
  is_Some (pcRuntimes projectConfig !! scRuntime serviceSpec).
Proof.
  unfold fromProjectConfiguration. intros H Hin Hrt Hfiles.
  destruct (loadSpecs E projectConfig _ _) as [st|err] eqn:Hl; [|discriminate].
  destruct (loadSpecs_ok E projectConfig _ _ _ Hl) as (_ & Hr & _).
  destruct (Hr serviceSpec Hin) as [_ Hk]. now apply Hk.
Qed.

Lemma fromProjectConfiguration_runtime_known_witness :
  let spec := {| scBasedir := "jobs"; scMatch := "*.py"; scRuntime := "slim";
                 scType := "job"; scStart := "" |} in
  let config :=
    {| pcName := "shop"; pcDirectory := "."; pcServices := [spec];
       pcRuntimes := <["slim" := {| rcDockerfile := "slim.dockerfile"; rcContext := "";
                                    rcArgs := ∅ |}]> ∅;
       pcPreview := [] |} in
  is_Some (pcRuntimes config !! "slim").
Proof.
  intros spec config.
  eapply (fromProjectConfiguration_runtime_known sampleOutside config _ spec).
  - vm_compute. reflexivity.
  - now left.
  - discriminate.
  - discriminate.
Defined.

(** X17. Patterns that match no file are no error for the loading: the
    project is loaded without services, and it is [BuildServices] that then
    fails, with the error that points at the patterns. *)
Theorem no_match_fails_at_build (E : Outside) (projectConfig : ProjectConfiguration) :
  (forall serviceSpec, In serviceSpec (pcServices projectConfig) ->
     Glob E (filepathJoin E (scBasedir serviceSpec) (scMatch serviceSpec)) = ([], None)) ->
  exists p,
    fromProjectConfiguration E projectConfig = (Some p, None) /\
    services p = [] /\
    BuildServices p = (None, Some (errorString noServicesMessage)).
Proof.
  intros Hglob.
  assert (Hl : forall specs st,
             (forall serviceSpec, In serviceSpec specs ->
                Glob E (filepathJoin E (scBasedir serviceSpec) (scMatch serviceSpec))
                  = ([], None)) ->
             loadSpecs E projectConfig specs st = inl st).
  { induction specs as [|spec specs IH]; intros st H; simpl; [reflexivity|].
    rewrite (H spec (or_introl eq_refl)). simpl. apply IH.
    intros; apply H; now right. }
  unfold fromProjectConfiguration. rewrite (Hl _ _ Hglob).
  eexists. split; [reflexivity|]. split; reflexivity.
Qed.

Lemma no_match_fails_at_build_witness :
  let config :=
    {| pcName := "shop"; pcDirectory := ".";
       pcServices := [ {| scBasedir := "functions"; scMatch := "*.go"; scRuntime := "gone";
                          scType := ""; scStart := "" |} ];
       pcRuntimes := ∅; pcPreview := [] |} in
  exists p,
    fromProjectConfiguration sampleOutside config = (Some p, None) /\
    services p = [] /\
    BuildServices p = (None, Some (errorString noServicesMessage)).
Proof.
  intros config. apply (no_match_fails_at_build sampleOutside config).
  intros spec [<-|[]]. reflexivity.
Defined.

(** X18. Service names do not tell a directory from a dash: a file in a
    directory and a file whose name joins the two with a dash get the same
    service name, so two files of a project can share one. *)
Theorem service_name_clash (name dir file e : string) :
  hasByte "." name = false -> hasByte "[" name = false ->
  hasByte "." dir = false -> hasByte "[" dir = false ->
  hasByte "." file = false -> hasByte "[" file = false ->
  hasByte "." e = false -> hasByte slash e = false ->
  pathToNormalizedServiceName name (dir ++ "/" ++ file ++ "." ++ e)
  = pathToNormalizedServiceName name (dir ++ "-" ++ file ++ "." ++ e).
Proof.
  intros Dn Bn Dd Bd Df Bf De Se.
  assert (E1 : dir ++ "/" ++ file ++ "." ++ e = (dir ++ "/" ++ file) ++ "." ++ e).
  { now rewrite !string_app_assoc. }
  assert (E2 : dir ++ "-" ++ file ++ "." ++ e = (dir ++ "-" ++ file) ++ "." ++ e).
  { now rewrite !string_app_assoc. }
  rewrite E1, E2.
  rewrite !service_name_plain; try assumption;
    try (rewrite !hasByte_app, ?Dd, ?Df, ?Bd, ?Bf; reflexivity).
  f_equal. rewrite !ReplaceAll_byte_app. reflexivity.
Qed.

Lemma service_name_clash_witness :
  pathToNormalizedServiceName "shop" "services/api/users.ts"
  = pathToNormalizedServiceName "shop" "services/api-users.ts".
Proof.
  exact (service_name_clash "shop" "services/api" "users" "ts"
           eq_refl eq_refl eq_refl eq_refl eq_refl eq_refl eq_refl eq_refl).
Defined.

(** X19. Calls that write different things can be made in either order:
    [AddSecurity] for two different names, [AddSecurityDefinition] for two
    different names, an [AddSecurity] and an [AddSecurityDefinition], and
    [AddWorker] with either of them, leave the same Api. *)
Theorem Api_calls_commute (a : Api) :
  (forall n1 s1 n2 s2, n1 <> n2 ->
     AddSecurity (AddSecurity a n1 s1) n2 s2 = AddSecurity (AddSecurity a n2 s2) n1 s1) /\
  (forall n1 d1 n2 d2, n1 <> n2 ->
     AddSecurityDefinition (AddSecurityDefinition a n1 d1) n2 d2
     = AddSecurityDefinition (AddSecurityDefinition a n2 d2) n1 d1) /\
  (forall n1 s1 n2 d2,
     AddSecurityDefinition (AddSecurity a n1 s1) n2 d2
     = AddSecurity (AddSecurityDefinition a n2 d2) n1 s1) /\
  (forall w n s, AddWorker (AddSecurity a n s) w = AddSecurity (AddWorker a w) n s) /\
  (forall w n d,
     AddWorker (AddSecurityDefinition a n d) w = AddSecurityDefinition (AddWorker a w) n d).
Proof.
  repeat split.
  - intros n1 s1 n2 s2 Hne. destruct s1, s2; unfold AddSecurity; simpl; f_equal;
      now apply insert_insert_ne.
  - intros n1 d1 n2 d2 Hne. unfold AddSecurityDefinition; simpl; f_equal.
    now apply insert_insert_ne.
  - intros n1 s1 n2 d2. now destruct s1.
  - intros w n s. unfold AddWorker. rewrite workers_AddSecurity.
    destruct (existsb _ _); now destruct s.
  - intros w n d. unfold AddWorker. simpl. now destruct (existsb _ _).
Qed.
